(** * StartCop: the upload dropzone, the report page and the scoring core

    A shallow embedding of the parts of the StartCop front end that carry
    logic ([file-dropzone.tsx], the [ReportPage] component) and of the
    chunking, scoring and review contracts of the evaluation core. *)

From Stdlib Require Import ZArith QArith Qabs Lqa Ascii String.
From stdpp Require Import gmap strings list fin_maps pretty.
From Equations Require Import Equations.

#[local] Open Scope string_scope.
#[local] Open Scope list_scope.
#[local] Open Scope Z_scope.

(** The three severities the repository uses for a gap
    (['high' | 'medium' | 'low'] in the report page). *)
Inductive RiskLevel := low | medium | high.

#[global] Instance RiskLevel_eq_dec : EqDecision RiskLevel.
Proof. solve_decision. Defined.

(** ** The file dropzone ([components/ui/file-dropzone.tsx]) *)
Module Dropzone.

(** The fields of a DOM [File] that the component reads. *)
Record File := mkFile {
  name : string;
  type : string;
  size : Z
}.

Inductive Status := st_pending | st_uploading | st_success | st_error.

#[global] Instance Status_eq_dec : EqDecision Status.
Proof. solve_decision. Defined.

(** [interface UploadedFile]; the optional fields are options. *)
Record UploadedFile := mkUploaded {
  uf_file : File;
  uf_id : string;
  uf_progress : option Z;
  uf_status : option Status;
  uf_error : option string
}.

(** What the drop library hands to [onDrop] for a refused file:
    [rejected.file] and [rejected.errors], each error with a [code] and a
    [message]. *)
Record FileError := mkError {
  code : string;
  message : string
}.

Record FileRejection := mkRejection {
  rej_file : File;
  errors : list FileError
}.

(** [FileDropzoneProps], without the callback and the styling. [accept] is
    the table of MIME types and their extensions; [maxSize] is in MB. *)
Record Props := mkProps {
  maxFiles : Z;
  maxSize : Z;
  accept : list (string * list string);
  disabled : bool
}.

Definition default_accept : list (string * list string) :=
  [ ("application/pdf", [".pdf"]);
    ("application/vnd.openxmlformats-officedocument.wordprocessingml.document",
     [".docx"]) ].

Definition default_props : Props :=
  {| maxFiles := 10; maxSize := 25; accept := default_accept; disabled := false |}.

(** [const maxSizeBytes = maxSize * 1024 * 1024] *)
Definition maxSizeBytes (p : Props) : Z := maxSize p * 1024 * 1024.

(** The message shown for one library error: the two codes the component
    knows get its own wording, any other code keeps the library's message. *)
Definition errorText (p : Props) (e : FileError) : string :=
  if String.eqb (code e) "file-too-large" then
    "Each file must be ≤ " +:+ pretty (maxSize p) +:+ " MB."
  else if String.eqb (code e) "file-invalid-type" then
    "Only PDF or DOCX are supported."
  else message e.

(** [`${file.name}-${Date.now()}`]; [now] is the clock's reading. *)
Definition fileId (f : File) (now : Z) : string :=
  name f +:+ "-" +:+ pretty now.

(** The entry built for a rejected file; [error: errors[0]] is [None] when
    the library gave no error at all. *)
Definition rejectedWithError (p : Props) (now : Z) (r : FileRejection)
    : UploadedFile :=
  {| uf_file := rej_file r;
     uf_id := fileId (rej_file r) now;
     uf_progress := None;
     uf_status := Some st_error;
     uf_error := head (errorText p <$> errors r) |}.

(** The entry built for an accepted file. *)
Definition newFile (now : Z) (f : File) : UploadedFile :=
  {| uf_file := f;
     uf_id := fileId f now;
     uf_progress := Some 0;
     uf_status := Some st_pending;
     uf_error := None |}.

(** [onDrop(acceptedFiles, rejectedFiles)]. [files] is the list the
    component was rendered with and [clock i] what [Date.now()] returns for
    the [i]-th mapped element. The result is the argument of the one call of
    [onFilesChange], or [None] when the handler returns without calling it. *)
Definition onDrop (p : Props) (files : list UploadedFile) (clock : nat → Z)
    (acceptedFiles : list File) (rejectedFiles : list FileRejection)
    : option (list UploadedFile) :=
  if bool_decide (0 < length rejectedFiles)%nat then
    Some (files ++ imap (λ i r, rejectedWithError p (clock i) r) rejectedFiles)
  else if bool_decide (maxFiles p < Z.of_nat (length files) + Z.of_nat (length acceptedFiles)) then
    None
  else
    Some (files ++ imap (λ i f, newFile (clock i) f) acceptedFiles).

(** The parent ([NewApplication]) passes [setFiles] as [onFilesChange]: the
    list after the handler ran. *)
Definition filesAfter (files : list UploadedFile)
    (r : option (list UploadedFile)) : list UploadedFile :=
  default files r.

(** *** The drop library

    [useDropzone] comes from react-dropzone, which is outside the
    repository. What follows is its documented treatment of a drop for the
    options the component passes ([accept], [maxSize: maxSizeBytes],
    [maxFiles: maxFiles - files.length], [disabled], and the defaults
    [multiple = true], [minSize = 0]). The test of a file against the
    [accept] table is left as a parameter [accepts]. *)
Section Library.

Variable accepts : list (string * list string) → File → bool.

Definition invalidType : FileError :=
  {| code := "file-invalid-type"; message := "File type is not accepted" |}.
Definition tooLarge : FileError :=
  {| code := "file-too-large"; message := "File is too large" |}.
Definition tooMany : FileError :=
  {| code := "too-many-files"; message := "Too many files" |}.

Definition typeOk (p : Props) (f : File) : bool := accepts (accept p) f.
Definition sizeOk (p : Props) (f : File) : bool :=
  bool_decide (size f ≤ maxSizeBytes p).
Definition fileOk (p : Props) (f : File) : bool := typeOk p f && sizeOk p f.

(** The errors of one file, the type error before the size error. *)
Definition fileErrors (p : Props) (f : File) : list FileError :=
  (if typeOk p f then [] else [invalidType]) ++
  (if sizeOk p f then [] else [tooLarge]).

(** The library's split of a dropped batch: each file is tested on its own;
    when more files pass than [maxFiles - files.length] allows (and that
    number is at least 1) all of them are refused as too many. *)
Definition classify (p : Props) (files : list UploadedFile) (batch : list File)
    : list File * list FileRejection :=
  let passed := filter (λ f, fileOk p f) batch in
  let refused :=
    (λ f, mkRejection f (fileErrors p f)) <$> filter (λ f, ¬ fileOk p f) batch in
  let room := maxFiles p - Z.of_nat (length files) in
  if bool_decide (1 ≤ room) && bool_decide (room < Z.of_nat (length passed)) then
    ([], refused ++ ((λ f, mkRejection f [tooMany]) <$> passed))
  else (passed, refused).

(** [disabled: disabled || files.length >= maxFiles] *)
Definition dropDisabled (p : Props) (files : list UploadedFile) : bool :=
  disabled p || bool_decide (maxFiles p ≤ Z.of_nat (length files)).

(** The file names the library leaves out of a dragged batch before it
    tests anything. *)
Definition ignoredNames : list string := [".DS_Store"; "Thumbs.db"].

Definition noIgnoredFiles (batch : list File) : list File :=
  filter (λ f, name f ∉ ignoredNames) batch.

(** A drop of the dragged [batch] on the component: nothing happens while
    it is disabled; otherwise the files with an ignored name are left out
    and the library's split of the others goes to [onDrop]. *)
Definition drop (p : Props) (files : list UploadedFile) (clock : nat → Z)
    (batch : list File) : list UploadedFile :=
  if dropDisabled p files then files
  else
    let '(acc, rej) := classify p files (noIgnoredFiles batch) in
    filesAfter files (onDrop p files clock acc rej).


(** What the split of a delivered [batch] appends, by the three ways it
    can go. *)
Definition appended (p : Props) (files : list UploadedFile) (clock : nat → Z)
    (batch : list File) : list UploadedFile :=
  let passed := filter (λ f, fileOk p f) batch in
  let refused :=
    (λ f, mkRejection f (fileErrors p f)) <$>
      filter (λ f, ¬ fileOk p f) batch in
  if bool_decide (maxFiles p - Z.of_nat (length files) < Z.of_nat (length passed)) then
    imap (λ i r, rejectedWithError p (clock i) r)
      (refused ++ ((λ f, mkRejection f [tooMany]) <$> passed))
  else match refused with
       | [] => imap (λ i f, newFile (clock i) f) passed
       | _ :: _ => imap (λ i r, rejectedWithError p (clock i) r) refused
       end.

End Library.

(** *** The library's test against the [accept] table

    The table is flattened to its MIME types and extensions; a file passes
    when one of them fits: an entry that starts with a dot the end of the
    file's name, an entry that ends in [/*] the part of the file's type
    before the slash, any other entry the whole type. Names, types and
    entries are compared in lower case; an empty table lets every file
    pass, and so does the type [application/x-moz-file]. Letters are
    lowered as ASCII, which is all it takes for ASCII names and types. The
    entries are taken as they stand: the library trims them and leaves out
    an entry that is neither a MIME type nor an extension, and the tables
    used here have no such entry. *)
Definition lowerAscii (a : ascii) : ascii :=
  let n := nat_of_ascii a in
  if (65 <=? n)%nat && (n <=? 90)%nat then ascii_of_nat (n + 32) else a.

Fixpoint toLowerCase (s : string) : string :=
  match s with
  | EmptyString => EmptyString
  | String a r => String (lowerAscii a) (toLowerCase r)
  end.

Definition endsWith (s suffix : string) : bool :=
  (String.length suffix <=? String.length s)%nat &&
  String.eqb
    (substring (String.length s - String.length suffix)
       (String.length suffix) s)
    suffix.

(** The text before the first slash, the base of a MIME type. *)
Fixpoint beforeSlash (s : string) : string :=
  match s with
  | EmptyString => EmptyString
  | String a r =>
      if Ascii.eqb a "/"%char then EmptyString else String a (beforeSlash r)
  end.

Definition acceptAttr (table : list (string * list string)) : list string :=
  concat ((λ entry, entry.1 :: entry.2) <$> table).

Definition fitsEntry (f : File) (entry : string) : bool :=
  let validType := toLowerCase entry in
  if String.prefix "." validType then endsWith (toLowerCase (name f)) validType
  else if endsWith validType "/*"
       then String.eqb (beforeSlash (toLowerCase (type f))) (beforeSlash validType)
       else String.eqb (toLowerCase (type f)) validType.

Definition attrAccepts (table : list (string * list string)) (f : File) : bool :=
  String.eqb (type f) "application/x-moz-file" ||
  match acceptAttr table with
  | [] => true
  | entries => existsb (fitsEntry f) entries
  end.

(** [removeFile(id)]: [onFilesChange(files.filter((f) => f.id !== id))];
    the result is the list handed to [onFilesChange]. *)
Definition removeFile (files : list UploadedFile) (id : string)
    : list UploadedFile :=
  filter (λ f, uf_id f ≠ id) files.

(** What the file list can become: a drop on the component or a click on
    the remove button of an entry. *)
Inductive step (accepts : list (string * list string) → File → bool)
    (p : Props) : list UploadedFile → list UploadedFile → Prop :=
  | step_drop files clock batch :
      step accepts p files (drop accepts p files clock batch)
  | step_remove files e :
      e ∈ files → step accepts p files (removeFile files (uf_id e)).

(** The entries that stand for accepted files: all but the error entries. *)
Definition acceptedEntries (files : list UploadedFile) : list UploadedFile :=
  filter (λ f, uf_status f ≠ Some st_error) files.

(** [x.toFixed(1)] for the quotient [x = num / den] of two positive
    integers: the number of tenths nearest to [x], the larger one on a tie,
    printed with one decimal. The two quotients [formatFileSize] prints are a
    whole number of bytes over a power of two, which a double holds exactly,
    so the integer arithmetic is the one [toFixed] does. *)
Definition tenths (num den : Z) : Z := (20 * num + den) / (2 * den).

Definition toFixed1 (num den : Z) : string :=
  pretty (tenths num den / 10) +:+ "." +:+ pretty (tenths num den mod 10).

(** [formatFileSize(bytes)] for a whole number of bytes. *)
Definition formatFileSize (bytes : Z) : string :=
  if bool_decide (bytes < 1024) then pretty bytes +:+ " B"
  else if bool_decide (bytes < 1024 * 1024) then toFixed1 bytes 1024 +:+ " KB"
  else toFixed1 bytes (1024 * 1024) +:+ " MB".

End Dropzone.

(** ** The report page ([ReportPage]) *)
Module Report.

(** An element of the page's [gaps] array. *)
Record Gap := mkGap {
  id : string;
  title : string;
  description : string;
  risk : RiskLevel;
  framework : string;
  impact : string
}.

(** The page's [reportData]. *)
Record ReportData := mkReport {
  report_id : string;
  score : Z;
  totalScore : Z;
  frameworks : list string;
  date : string;
  status : string;
  report_name : string
}.

(** The mock data the component is written with; [id] is the route
    parameter, [None] when the route has none ([id || '1']). *)
Definition reportData (id : option string) : ReportData :=
  {| report_id := default "1" id;
     score := 85;
     totalScore := 100;
     frameworks := ["QFCRA"; "ISO 27001"; "GDPR"];
     date := "2024-10-20";
     status := "completed";
     report_name := "Q4 2024 Compliance Review" |}.

Definition gaps : list Gap :=
  [ mkGap "1" "Data Encryption at Rest"
      "Personal data is not encrypted when stored in databases"
      high "GDPR" "Potential data breach exposure";
    mkGap "2" "Access Control Logging"
      "Insufficient logging of user access to sensitive systems"
      high "ISO 27001" "Unable to track unauthorized access attempts";
    mkGap "3" "Data Retention Policy"
      "Missing clear data retention and deletion procedures"
      medium "QFCRA" "Non-compliance with data minimization principles";
    mkGap "4" "Incident Response Plan"
      "Security incident response procedures need updating"
      medium "ISO 27001" "Delayed response to security incidents";
    mkGap "5" "Privacy Impact Assessment"
      "PIA documentation is incomplete for new data processing activities"
      low "GDPR" "Insufficient privacy risk documentation" ].

(** [gaps.filter(gap => gap.risk === r)] *)
Definition withRisk (r : RiskLevel) (gs : list Gap) : list Gap :=
  filter (λ g, risk g = r) gs.

(** One [<li>] of "Key Areas Requiring Attention": the number in its badge
    and the gap it names. *)
Record KeyArea := mkArea {
  badge : nat;
  area : Gap
}.

(** The two mapped groups of the list, in the order they are rendered. A
    false left operand of [&&] renders nothing. *)
Definition keyAreas (gs : list Gap) : list KeyArea :=
  imap (λ index gap, mkArea (index + 1) gap) (take 3 (withRisk high gs)) ++
  (if bool_decide (length (withRisk high gs) < 3)%nat then
     imap (λ index gap, mkArea (length (withRisk high gs) + index + 1) gap)
       (take (3 - length (withRisk high gs)) (withRisk medium gs))
   else []).

(** The heading chosen by the nested conditional on the score. *)
Definition headline (r : ReportData) : string :=
  if bool_decide (80 ≤ score r) then "Your application is comprehensive"
  else if bool_decide (60 ≤ score r) then "Your application is partially complete"
  else "Your application contains major risks".

(** [reportData.score < 90 && (...)]: whether the "Manual Review Required"
    banner is rendered. *)
Definition manualReviewFlag (r : ReportData) : bool :=
  bool_decide (score r < 90).

(** What the score summary card shows. *)
Record ScoreSummary := mkSummary {
  shownScore : Z;
  shownHeadline : string;
  shownAreas : list KeyArea;
  manualReview : bool
}.

Definition scoreSummary (r : ReportData) (gs : list Gap) : ScoreSummary :=
  {| shownScore := score r;
     shownHeadline := headline r;
     shownAreas := keyAreas gs;
     manualReview := manualReviewFlag r |}.

End Report.

(** Modelled from the spec: the error taxonomy of the evaluation core. *)
Inductive Error :=
  | ExtractionError
  | EmbeddingUnavailable
  | ConfigurationError
  | IngestionTimeout.

(** ** The chunker *)
Module Chunker.

Section Units.

(** The unit a window counts: a token or a character. *)
Context {A : Type}.

(** Modelled from the spec: the back end's chunker is not among the
    sources. A document is its ordered pages; its extracted text is their
    concatenation. *)
Record Document := mkDocument {
  doc_id : string;
  pages : list (list A)
}.

(** Modelled from the spec: the extracted text is the text of the pages in
    order. *)
Definition extractedText (d : Document) : list A := concat (pages d).

(** Modelled from the spec: the Chunk record of the data model. *)
Record Chunk := mkChunk {
  chunk_id : string;
  documentId : string;
  ordinal : nat;
  text : list A;
  pageNumber : nat;
  charOffsetStart : nat;
  charOffsetEnd : nat
}.

(** Modelled from the spec: the one page a chunk is attributed to, the page
    (counted from 1) that holds the chunk's first unit. *)
Fixpoint pageAt (ps : list (list A)) (offset : nat) : nat :=
  match ps with
  | [] => 1
  | p :: ps' =>
      if decide (offset < length p)%nat then 1%nat
      else S (pageAt ps' (offset - length p))
  end.

(** Modelled from the spec: the chunk with ordinal [ord] that holds the
    units [t] found at offset [start]; its identifier is the document's
    followed by the ordinal, so it is the same on every run. *)
Definition chunkAt (d : Document) (ord start : nat) (t : list A) : Chunk :=
  {| chunk_id := doc_id d +:+ "#" +:+ pretty ord;
     documentId := doc_id d;
     ordinal := ord;
     text := t;
     pageNumber := pageAt (pages d) start;
     charOffsetStart := start;
     charOffsetEnd := (start + length t)%nat |}.

(** Modelled from the spec: the sliding window. [rest] is the text from
    offset [start] on; a window of [W] units is cut and the next one starts
    [S s] units later, until the window reaches the end of the text. Text
    no longer than [W] is one chunk, empty text is none. *)
Equations? windows (d : Document) (W s : nat) (ord start : nat)
    (rest : list A) : list Chunk by wf (length rest) lt :=
  windows d W s ord start [] := [];
  windows d W s ord start (x :: r) with decide (length (x :: r) ≤ W)%nat => {
    | left _ := [chunkAt d ord start (x :: r)];
    | right _ :=
        chunkAt d ord start (take W (x :: r)) ::
        windows d W s (S ord) (start + S s) (drop (S s) (x :: r)) }.
Proof. rewrite length_drop. simpl. lia. Qed.

(** Modelled from the spec: the chunker with window [W] and overlap [O];
    a configuration outside [0 ≤ O < W] is refused. *)
Definition chunk (W O : nat) (d : Document) : Error + list Chunk :=
  if decide (O < W)%nat
  then inr (windows d W (W - O - 1) 0 0 (extractedText d))
  else inl ConfigurationError.

(** Modelled from the spec: re-concatenation of chunk texts minus overlap.
    The first chunk is taken whole, every later one without its leading [O]
    units, which repeat the end of the chunk before it. *)
Definition reassemble (O : nat) (cs : list Chunk) : list A :=
  match cs with
  | [] => []
  | c :: cs' => text c ++ concat ((λ c', drop O (text c')) <$> cs')
  end.

End Units.

Arguments Document : clear implicits.
Arguments Chunk : clear implicits.

End Chunker.

(** ** The scorecard calculator *)
Module Scorecard.

(** Modelled from the spec: the Gap record of the data model. *)
Record Gap := mkGap {
  id : string;
  title : string;
  description : string;
  riskLevel : RiskLevel;
  articleRef : string;
  category : string;
  impactText : string
}.

(** Modelled from the spec: a weight is a fraction, a natural numerator over
    a positive denominator. *)
Record Fraction := mkFraction {
  numer : N;
  denom : positive
}.

(** Modelled from the spec: the rational number a fraction stands for. *)
Definition value (f : Fraction) : Q := Z.of_N (numer f) # denom f.

(** Modelled from the spec: the configurable penalty per severity. *)
Record Penalties := mkPenalties {
  highPenalty : N;
  mediumPenalty : N;
  lowPenalty : N
}.

(** Modelled from the spec: high=30, medium=15, low=5. *)
Definition default_penalties : Penalties :=
  {| highPenalty := 30; mediumPenalty := 15; lowPenalty := 5 |}.

(** Modelled from the spec: the penalty of one severity. *)
Definition penalty (p : Penalties) (r : RiskLevel) : Z :=
  match r with
  | high => Z.of_N (highPenalty p)
  | medium => Z.of_N (mediumPenalty p)
  | low => Z.of_N (lowPenalty p)
  end.

(** Modelled from the spec: the calculator's configuration, the penalties
    and the tolerance [epsilon] on the sum of the weights. *)
Record Config := mkConfig {
  penalties : Penalties;
  epsilon : Q
}.

(** Modelled from the spec: the default penalties and a tolerance of 1e-6. *)
Definition default_config : Config :=
  {| penalties := default_penalties; epsilon := 1 # 1000000 |}.

(** Modelled from the spec: one Gap decrements the score of its own
    category by the penalty of its severity. *)
Definition decrement (p : Penalties) (c : string) (s : Z) (g : Gap) : Z :=
  if decide (category g = c) then s - penalty p (riskLevel g) else s.

(** Modelled from the spec: a category's score starts at 100, is decremented
    per Gap of the category and is floored at 0. *)
Definition categoryScore (p : Penalties) (gaps : list Gap) (c : string) : Z :=
  Z.max 0 (fold_left (decrement p c) gaps 100).

(** Modelled from the spec: what the Gaps of a category deduct in total, the
    per-Gap breakdown a reader adds up by hand. *)
Fixpoint totalPenalty (p : Penalties) (c : string) (gaps : list Gap) : Z :=
  match gaps with
  | [] => 0
  | g :: gaps' =>
      (if decide (category g = c) then penalty p (riskLevel g) else 0)
      + totalPenalty p c gaps'
  end.

(** Modelled from the spec: the sum of the weights of all categories. *)
Definition weightSum (w : gmap string Fraction) : Q :=
  map_fold (λ _ f acc, acc + value f)%Q 0%Q w.

(** Modelled from the spec: weights are valid when they sum to 1.0 within
    [epsilon]. *)
Definition weightsValid (eps : Q) (w : gmap string Fraction) : bool :=
  Qle_bool (Qabs (weightSum w - 1)) eps.

(** Modelled from the spec: the Scorecard record of the data model. *)
Record Scorecard := mkScorecard {
  overallScore : Q;
  perCategoryScore : gmap string Z;
  weights : gmap string Fraction
}.

(** Modelled from the spec: the weighted sum of the per-category scores. *)
Definition weightedSum (p : Penalties) (gaps : list Gap)
    (w : gmap string Fraction) : Q :=
  map_fold (λ c f acc, acc + value f * inject_Z (categoryScore p gaps c))%Q 0%Q w.

(** Modelled from the spec: the contribution of one weighted category, and
    the sum of a list of contributions: the terms the two folds over the
    weights add up. *)
Definition weighted (sc : string → Z) (e : string * Fraction) : Q :=
  value e.2 * inject_Z (sc e.1).

Fixpoint total (l : list Q) : Q :=
  match l with
  | [] => 0
  | q :: l' => total l' + q
  end.

(** Modelled from the spec: [score(gaps, weights)], which fails with a
    ConfigurationError when the weights are not valid. *)
Definition score (cfg : Config) (gaps : list Gap) (w : gmap string Fraction)
    : Error + Scorecard :=
  if weightsValid (epsilon cfg) w then
    inr {| overallScore := weightedSum (penalties cfg) gaps w;
           perCategoryScore :=
             map_imap (λ c _, Some (categoryScore (penalties cfg) gaps c)) w;
           weights := w |}
  else inl ConfigurationError.

(** Modelled from the spec: what the core is started with, and the running
    core. Startup validates the configured weights and keeps them. *)
Record Settings := mkSettings {
  configured : Config;
  configuredWeights : gmap string Fraction
}.

(** Modelled from the spec: the running core and the settings it runs on. *)
Record Engine := mkEngine {
  engineConfig : Config;
  engineWeights : gmap string Fraction
}.

(** Modelled from the spec: invalid weights are fatal at startup; there are
    no default weights to fall back on. *)
Definition startup (s : Settings) : Error + Engine :=
  if weightsValid (epsilon (configured s)) (configuredWeights s) then
    inr {| engineConfig := configured s; engineWeights := configuredWeights s |}
  else inl ConfigurationError.

(** Modelled from the spec: the calculator as the running core calls it. *)
Definition engineScore (e : Engine) (gaps : list Gap) : Error + Scorecard :=
  score (engineConfig e) gaps (engineWeights e).

End Scorecard.

(** ** The review gate *)
Module ReviewGate.

(** Modelled from the spec: a semantic-check Gap candidate, with the
    confidence its classification had. *)
Record Candidate := mkCandidate {
  candidateArticle : string;
  confidence : Q
}.

(** Modelled from the spec: what an evaluation run hands to the gate, its
    Scorecard, its Gaps and the candidates of its semantic checks. *)
Record Run := mkRun {
  scorecard : Scorecard.Scorecard;
  gaps : list Scorecard.Gap;
  candidates : list Candidate
}.

(** Modelled from the spec: the configured thresholds of the gate, for the
    overall score and for the classification confidence. *)
Record GateConfig := mkGateConfig {
  scoreThreshold : Q;
  confidenceThreshold : Q
}.

(** Modelled from the spec: the three flagging criteria. *)
Inductive Criterion := LowScore | HighRisk | LowConfidence.

(** Modelled from the spec: "below-threshold" is strict, as in
    [overall score < threshold]. *)
Definition below (x threshold : Q) : bool := negb (Qle_bool threshold x).

(** Modelled from the spec: whether a run trips a criterion: its overall
    score is below the score threshold, one of its Gaps has
    [riskLevel = high], or one of its candidates had a confidence below the
    confidence threshold. *)
Definition trips (cfg : GateConfig) (r : Run) (c : Criterion) : bool :=
  match c with
  | LowScore =>
      below (Scorecard.overallScore (scorecard r)) (scoreThreshold cfg)
  | HighRisk =>
      existsb (λ g, bool_decide (Scorecard.riskLevel g = high)) (gaps r)
  | LowConfidence =>
      existsb (λ c, below (confidence c) (confidenceThreshold cfg))
        (candidates r)
  end.

(** Modelled from the spec: the criteria a run trips. *)
Definition tripped (cfg : GateConfig) (r : Run) : list Criterion :=
  filter (λ c, trips cfg r c) [LowScore; HighRisk; LowConfidence].

(** Modelled from the spec: the states of the gate. *)
Inductive State := AutoResolved | PendingReview | Reviewed.

#[global] Instance State_eq_dec : EqDecision State.
Proof. solve_decision. Defined.

(** Modelled from the spec: the explicit decisions of an expert (affirm,
    override riskLevel, dismiss). *)
Inductive Decision := Affirm | OverrideRisk (r : RiskLevel) | Dismiss.

(** Modelled from the spec: [requiredAction: manual-review]. *)
Inductive Action := ManualReview.

(** Modelled from the spec: the ReviewFlag record of the data model; the
    expert feedback is a history that only grows. *)
Record ReviewFlag := mkFlag {
  evaluationRunId : string;
  reason : list Criterion;
  requiredAction : Action;
  expertFeedback : list Decision
}.

(** Modelled from the spec: what the gate keeps per run. *)
Record Entry := mkEntry {
  run : Run;
  state : State;
  flag : option ReviewFlag
}.

(** Modelled from the spec: the gate's verdict on a run that has just been
    evaluated: Pending-Review with a flag when a criterion trips,
    Auto-Resolved without one otherwise. *)
Definition enter (cfg : GateConfig) (rid : string) (r : Run) : Entry :=
  match tripped cfg r with
  | [] => {| run := r; state := AutoResolved; flag := None |}
  | reasons =>
      {| run := r; state := PendingReview;
         flag := Some {| evaluationRunId := rid; reason := reasons;
                         requiredAction := ManualReview;
                         expertFeedback := [] |} |}
  end.

(** Modelled from the spec: the gate's part of [evaluate(runId)]. A run the
    gate already knows keeps its entry: its inputs, and so its outcome, are
    the same, and no expert decision may be lost. *)
Definition evaluated (cfg : GateConfig) (store : gmap string Entry)
    (rid : string) (r : Run) : gmap string Entry :=
  match store !! rid with
  | Some _ => store
  | None => <[rid := enter cfg rid r]> store
  end.

(** Modelled from the spec: [listPending()], the flags of the runs in state
    Pending-Review. *)
Definition listPending (store : gmap string Entry) : list ReviewFlag :=
  omap (λ item, match state item.2 with
                | PendingReview => flag item.2
                | _ => None
                end)
    (map_to_list store).

(** Modelled from the spec: [submitReview(runId, decision)]. Only a flagged
    run can be reviewed; the decision is appended to the flag's feedback
    and the run is Reviewed from then on. *)
Definition submitReview (store : gmap string Entry) (rid : string)
    (d : Decision) : option (gmap string Entry * ReviewFlag) :=
  match store !! rid with
  | Some {| run := r; state := st; flag := Some f |} =>
      match st with
      | AutoResolved => None
      | _ =>
          let f' := {| evaluationRunId := evaluationRunId f;
                       reason := reason f;
                       requiredAction := requiredAction f;
                       expertFeedback := expertFeedback f ++ [d] |} in
          Some (<[rid := {| run := r; state := Reviewed; flag := Some f' |}]> store,
                f')
      end
  | _ => None
  end.

(** Modelled from the spec: what the gate's store can become, by an
    evaluation or by an expert's review. *)
Inductive step (cfg : GateConfig)
    : gmap string Entry → gmap string Entry → Prop :=
  | step_evaluate store rid r :
      step cfg store (evaluated cfg store rid r)
  | step_review store rid d store' f :
      submitReview store rid d = Some (store', f) → step cfg store store'.


(** Modelled from the spec: the run ids of a list of flags, by which a
    run is found in [listPending]. *)
Definition runIds (flags : list ReviewFlag) : list string :=
  evaluationRunId <$> flags.


End ReviewGate.

(** ** The upload page ([NewApplication]) *)
Module NewApplication.
Import Dropzone.

(** [files.filter((f) => f.status === "pending")] *)
Definition pendingFiles (files : list UploadedFile) : list UploadedFile :=
  filter (λ f, uf_status f = Some st_pending) files.

(** [prev.map((f) => f.id === file.id ? { ...f, status, progress } : f)]:
    the shape of the state updates of [uploadFile]; [status = None] leaves
    the status as it is. *)
Definition patch (id : string) (status : option Status) (progress : Z)
    (prev : list UploadedFile) : list UploadedFile :=
  (λ f, if decide (uf_id f = id)
        then {| uf_file := uf_file f;
                uf_id := uf_id f;
                uf_progress := Some progress;
                uf_status := from_option Some (uf_status f) status;
                uf_error := uf_error f |}
        else f) <$> prev.

(** [{ ...f, status: "uploading", progress: 0 }] *)
Definition markUploading (id : string) := patch id (Some st_uploading) 0.
(** [{ ...f, progress: i }] *)
Definition setProgress (id : string) (i : Z) := patch id None i.
(** [{ ...f, status: "success", progress: 100 }] *)
Definition markSuccess (id : string) := patch id (Some st_success) 100.

(** [for (let i = 0; i <= 100; i += step)]: the values [i] takes, from
    [i] on. *)
Equations? countUp (step : positive) (i : Z) : list Z
    by wf (Z.to_nat (101 - i)) lt :=
  countUp step i with decide (i ≤ 100) => {
    | left _ := i :: countUp step (i + Z.pos step);
    | right _ := [] }.
Proof. lia. Qed.

(** The state updates one [uploadFile(file)] makes, in order; the waits
    between them are left out. *)
Definition uploadSteps (id : string)
    : list (list UploadedFile → list UploadedFile) :=
  markUploading id :: (setProgress id <$> countUp 10 0) ++ [markSuccess id].

(** The list after all updates of one upload, when nothing else changes the
    list in between. *)
Definition uploadFile (id : string) (prev : list UploadedFile)
    : list UploadedFile :=
  foldl (λ st update, update st) prev (uploadSteps id).

(** [canProcess()] *)
Definition canProcess (files : list UploadedFile) : bool :=
  bool_decide (0 < length (filter (λ f, uf_status f = Some st_success) files))%nat.

(** What [handleStartEvaluation] does, in order, without the waits. *)
Inductive Event :=
  | Toast (title description : string) (destructive : bool)
  | SetIsEvaluating (b : bool)
  | SetEvaluationProgress (i : Z)
  | Navigate (path : string).

Definition handleStartEvaluation (files : list UploadedFile) : list Event :=
  if bool_decide
       (length (filter (λ f, uf_status f = Some st_success) files) = 0)%nat
  then [ Toast "Files required"
           "Please upload at least one file to continue." true ]
  else
    [ SetIsEvaluating true; SetEvaluationProgress 0 ] ++
    (SetEvaluationProgress <$> countUp 5 0) ++
    [ Toast "Evaluation complete"
        "Your compliance evaluation has been processed successfully." false;
      SetIsEvaluating false;
      Navigate "/reports/1" ].

End NewApplication.

(** ** The multi-select ([components/ui/multi-select.tsx]) *)
Module MultiSelect.

Record SelectOption := mkOption {
  value : string;
  label : string
}.

(** [options.filter((opt) => selected.includes(opt.value))] *)
Definition selectedOptions (options : list SelectOption)
    (selected : list string) : list SelectOption :=
  filter (λ opt, value opt ∈ selected) options.

(** [toggleOption(value)]; the result is the argument of [onChange]. *)
Definition toggleOption (selected : list string) (v : string) : list string :=
  if bool_decide (v ∈ selected)
  then filter (λ x, x ≠ v) selected
  else selected ++ [v].

(** [removeOption(value)] *)
Definition removeOption (selected : list string) (v : string) : list string :=
  filter (λ x, x ≠ v) selected.

End MultiSelect.

(** ** The stepper ([components/ui/stepper.tsx]) *)
Module Stepper.

Record Step := mkStep {
  id : string;
  title : string;
  description : option string
}.

Inductive Orientation := horizontal | vertical.

#[global] Instance Orientation_eq_dec : EqDecision Orientation.
Proof. solve_decision. Defined.

(** What one list item shows: the three flags of the step, the number in
    its circle ([None] when the check mark is drawn instead), whether it
    carries [aria-current], and the connector line after it ([None] when
    there is none, otherwise whether it has the primary colour). *)
Record StepItem := mkItem {
  isCompleted : bool;
  isCurrent : bool;
  isUpcoming : bool;
  circle : option nat;
  ariaCurrent : bool;
  connector : option bool
}.

(** The body of [steps.map((step, index) => ...)]; [currentStep] is a whole
    number. *)
Definition renderStep (orientation : Orientation) (steps : list Step)
    (currentStep : Z) (index : nat) : StepItem :=
  let completed := bool_decide (Z.of_nat index < currentStep) in
  let current := bool_decide (Z.of_nat index = currentStep) in
  let upcoming := bool_decide (Z.of_nat index > currentStep) in
  {| isCompleted := completed;
     isCurrent := current;
     isUpcoming := upcoming;
     circle := if completed then None else Some (index + 1)%nat;
     ariaCurrent := current;
     connector :=
       if bool_decide (orientation = horizontal) &&
          bool_decide (Z.of_nat index < Z.of_nat (length steps) - 1)
       then Some completed else None |}.

Definition stepper (orientation : Orientation) (steps : list Step)
    (currentStep : Z) : list StepItem :=
  imap (λ index _, renderStep orientation steps currentStep index) steps.

End Stepper.

(** ** The visibility hook ([useIntersectionObserver]) *)
Module Observer.

(** The two pieces of state of the hook. *)
Record State := mkState {
  isIntersecting : bool;
  hasIntersected : bool
}.

Definition initial : State :=
  {| isIntersecting := false; hasIntersected := false |}.

(** [handleIntersection(entries)]; an entry is given by its
    [isIntersecting]. [const [entry] = entries] takes the first one, and
    reading a field of the missing entry of an empty array throws: [None].
    The callback is created anew whenever [hasIntersected] changes; an
    older one can only repeat [setHasIntersected(true)]. *)
Definition handleIntersection (st : State) (entries : list bool)
    : option State :=
  match entries with
  | [] => None
  | isVisible :: _ =>
      Some {| isIntersecting := isVisible;
              hasIntersected :=
                if isVisible && negb (hasIntersected st) then true
                else hasIntersected st |}
  end.

(** The visibility a batch reports: that of its first entry. *)
Definition reported (entries : list bool) : bool := default false (head entries).

(** The state after the observer has called back with each batch in turn. *)
Definition observe (st : State) (batches : list (list bool)) : option State :=
  foldl (λ acc entries, acc ≫= λ st', handleIntersection st' entries)
    (Some st) batches.

(** [freezeOnceVisible ? hasIntersected : isIntersecting] *)
Definition shouldAnimate (freezeOnceVisible : bool) (st : State) : bool :=
  if freezeOnceVisible then hasIntersected st else isIntersecting st.

(** [getAnimationClass(baseClass, animationClass)] of [useAnimationControl] *)
Definition getAnimationClass (freezeOnceVisible : bool) (st : State)
    (baseClass animationClass : string) : string :=
  if shouldAnimate freezeOnceVisible st
  then baseClass +:+ " " +:+ animationClass
  else baseClass.

End Observer.

(** ** Sample data used by the examples below *)
Module Samples.

Definition plan_pdf : Dropzone.File :=
  Dropzone.mkFile "plan.pdf" "application/pdf" 2048.
Definition setup_exe : Dropzone.File :=
  Dropzone.mkFile "setup.exe" "application/x-msdownload" 4096.
Definition big_pdf : Dropzone.File :=
  Dropzone.mkFile "big.pdf" "application/pdf" (26 * 1024 * 1024).
Definition notes_pdf : Dropzone.File :=
  Dropzone.mkFile "Notes.PDF" "text/plain" 512.
Definition ds_store : Dropzone.File :=
  Dropzone.mkFile ".DS_Store" "application/pdf" 6148.

Definition noon : nat → Z := λ _, 1729425600000.

(** Weights of one half each; two weights of 0.50000025 each, whose sum
    1.0000005 is within the default tolerance of 1; and a single weight of
    one half, whose sum is not. *)
Definition even_weights : gmap string Scorecard.Fraction :=
  <["aml" := Scorecard.mkFraction 1 2]>
    {["governance" := Scorecard.mkFraction 1 2]}.
Definition heavy_weights : gmap string Scorecard.Fraction :=
  <["aml" := Scorecard.mkFraction 50000025 100000000]>
    {["governance" := Scorecard.mkFraction 50000025 100000000]}.
Definition half_weights : gmap string Scorecard.Fraction :=
  {["aml" := Scorecard.mkFraction 1 2]}.

Definition residency_gap : Scorecard.Gap :=
  Scorecard.mkGap "g1" "Data residency" "Customer data is stored abroad"
    high "2.1.1" "aml" "Data storage is outside the State".
Definition officer_gap : Scorecard.Gap :=
  Scorecard.mkGap "g2" "Compliance Officer" "No dedicated Compliance Officer"
    high "2.2.1" "governance" "Requires appointment of a dedicated officer".
Definition policy_gap : Scorecard.Gap :=
  Scorecard.mkGap "g3" "Privacy policy" "Policy is still a draft"
    low "3.1" "aml" "Documentation is incomplete".

Definition two_pages : Chunker.Document Z :=
  Chunker.mkDocument "plan" [[1; 2; 3]; [4; 5; 6; 7; 8; 9; 10]].

(** A gate that reviews scores below 90 and confidences below one half;
    a run that scores 95 without any Gap, one that scores 95 with a
    high-risk Gap, and one whose only mark is a candidate classified with a
    confidence of 0.4. *)
Definition gate_config : ReviewGate.GateConfig :=
  ReviewGate.mkGateConfig 90 (1 # 2).

Definition card (overall : Q) : Scorecard.Scorecard :=
  Scorecard.mkScorecard overall ∅ even_weights.

Definition clean_run : ReviewGate.Run :=
  ReviewGate.mkRun (card 95) [] [].
Definition risky_run : ReviewGate.Run :=
  ReviewGate.mkRun (card 95) [residency_gap] [].
Definition unsure_run : ReviewGate.Run :=
  ReviewGate.mkRun (card 95) [policy_gap]
    [ReviewGate.mkCandidate "3.1" (2 # 5)].

(** The gate after the three runs were evaluated, and after an expert
    affirmed the first of them. *)
Definition gate_store : gmap string ReviewGate.Entry :=
  ReviewGate.evaluated gate_config
    (ReviewGate.evaluated gate_config
       (ReviewGate.evaluated gate_config ∅ "run-1" risky_run)
       "run-2" clean_run)
    "run-3" unsure_run.

Definition reviewed_store : gmap string ReviewGate.Entry :=
  from_option fst gate_store
    (ReviewGate.submitReview gate_store "run-1" ReviewGate.Affirm).

End Samples.

(** * Facts about lists used throughout *)
Module ListFacts.

Lemma fmap_imap_const {A B C} (f : nat → A → B) (g : B → C) (h : A → C) l :
  (∀ i x, g (f i x) = h x) → g <$> imap f l = h <$> l.
Proof.
  intros Hgf. revert f Hgf.
  induction l as [|x l IH]; intros f Hgf; [done|].
  rewrite imap_cons. cbn [fmap list_fmap]. rewrite Hgf. f_equal.
  apply IH. intros i y. apply Hgf.
Qed.

Lemma fmap_imap_section {A B} (f : nat → A → B) (g : B → A) l :
  (∀ i x, g (f i x) = x) → g <$> imap f l = l.
Proof.
  intros Hgf. rewrite (fmap_imap_const f g (λ x, x)) by done.
  apply list_fmap_id.
Qed.

Lemma Forall_imap {A B} (P : B → Prop) (f : nat → A → B) l :
  (∀ i x, P (f i x)) → Forall P (imap f l).
Proof.
  intros Hf. apply Forall_forall. intros y Hy.
  apply elem_of_lookup_imap_1 in Hy as (i & x & -> & _). apply Hf.
Qed.

Lemma filter_all {A} (P : A → Prop) `{∀ x, Decision (P x)} (l : list A) :
  (∀ x, x ∈ l → P x) → filter P l = l.
Proof.
  induction l as [|x l IH]; intros Hall; [done|].
  rewrite filter_cons_True by (apply Hall; left).
  f_equal. apply IH. intros y Hy. apply Hall. by right.
Qed.

Lemma filter_none {A} (P : A → Prop) `{∀ x, Decision (P x)} (l : list A) :
  (∀ x, x ∈ l → ¬ P x) → filter P l = [].
Proof.
  induction l as [|x l IH]; intros Hall; [done|].
  rewrite filter_cons_False by (apply Hall; left).
  apply IH. intros y Hy. apply Hall. by right.
Qed.

End ListFacts.

(** * Properties of the dropzone *)
Module DropzoneFacts.
Import Dropzone ListFacts.

Lemma onDrop_rejections p files clock acc rej :
  rej ≠ [] →
  onDrop p files clock acc rej =
    Some (files ++ imap (λ i r, rejectedWithError p (clock i) r) rej).
Proof.
  intros Hrej. unfold onDrop. rewrite bool_decide_true; [done|].
  destruct rej; [done|simpl; lia].
Qed.

Lemma onDrop_no_rejections p files clock acc :
  onDrop p files clock acc [] =
    if bool_decide (maxFiles p < Z.of_nat (length files) + Z.of_nat (length acc))
    then None
    else Some (files ++ imap (λ i f, newFile (clock i) f) acc).
Proof. unfold onDrop. rewrite bool_decide_false; [done|simpl; lia]. Qed.

(** C8. When the batch handed to [onDrop] has at least one rejected file,
    [onFilesChange] receives the old list followed by exactly one entry per
    rejected file, each with status error; the accepted files play no part
    (the result is the same as for an empty accepted list) and none of them
    is added. *)
Theorem onDrop_rejected_discards_accepted p files clock acc rej :
  rej ≠ [] →
  ∃ added,
    onDrop p files clock acc rej = Some (files ++ added) ∧
    uf_file <$> added = rej_file <$> rej ∧
    Forall (λ e, uf_status e = Some st_error) added ∧
    onDrop p files clock acc rej = onDrop p files clock [] rej ∧
    (∀ f, f ∈ acc → ¬ ∃ e, e ∈ added ∧ uf_file e = f ∧ uf_status e = Some st_pending).
Proof.
  intros Hrej.
  exists (imap (λ i r, rejectedWithError p (clock i) r) rej).
  assert (Herr : Forall (λ e, uf_status e = Some st_error)
                   (imap (λ i r, rejectedWithError p (clock i) r) rej))
    by (apply Forall_imap; done).
  split_and!.
  - by apply onDrop_rejections.
  - by apply fmap_imap_const.
  - exact Herr.
  - by rewrite !onDrop_rejections.
  - intros f _ (e & He & _ & Hpending).
    rewrite Forall_forall in Herr. specialize (Herr e He). congruence.
Qed.

Lemma onDrop_rejected_discards_accepted_witness :
  ∃ added,
    onDrop default_props [] Samples.noon [Samples.plan_pdf]
      [mkRejection Samples.setup_exe [invalidType]] = Some ([] ++ added) ∧
    uf_file <$> added = [Samples.setup_exe] ∧
    Forall (λ e, uf_status e = Some st_error) added ∧
    onDrop default_props [] Samples.noon [Samples.plan_pdf]
      [mkRejection Samples.setup_exe [invalidType]] =
    onDrop default_props [] Samples.noon []
      [mkRejection Samples.setup_exe [invalidType]] ∧
    (∀ f, f ∈ [Samples.plan_pdf] →
       ¬ ∃ e, e ∈ added ∧ uf_file e = f ∧ uf_status e = Some st_pending).
Proof.
  apply (onDrop_rejected_discards_accepted default_props [] Samples.noon
           [Samples.plan_pdf] [mkRejection Samples.setup_exe [invalidType]]).
  discriminate.
Defined.

(** C9. With no rejected file, when the current number of files plus the
    number of accepted files exceeds [maxFiles], [onDrop] returns without
    calling [onFilesChange]: the list stays as it was. *)
Theorem onDrop_over_limit_unchanged p files clock acc :
  maxFiles p < Z.of_nat (length files) + Z.of_nat (length acc) →
  onDrop p files clock acc [] = None ∧
  filesAfter files (onDrop p files clock acc []) = files.
Proof.
  intros Hover. rewrite onDrop_no_rejections, bool_decide_true by done. done.
Qed.

Lemma onDrop_over_limit_unchanged_witness :
  onDrop default_props (replicate 9 (newFile 0 Samples.plan_pdf)) Samples.noon
    [Samples.plan_pdf; Samples.big_pdf] [] = None ∧
  filesAfter (replicate 9 (newFile 0 Samples.plan_pdf))
    (onDrop default_props (replicate 9 (newFile 0 Samples.plan_pdf)) Samples.noon
       [Samples.plan_pdf; Samples.big_pdf] []) =
  replicate 9 (newFile 0 Samples.plan_pdf).
Proof.
  apply (onDrop_over_limit_unchanged default_props
           (replicate 9 (newFile 0 Samples.plan_pdf)) Samples.noon
           [Samples.plan_pdf; Samples.big_pdf]).
  vm_compute. reflexivity.
Defined.

Section Drop.

Variable accepts : list (string * list string) → File → bool.


Lemma split_appended p files clock delivered :
  dropDisabled p files = false →
  (let '(acc, rej) := classify accepts p files delivered in
   filesAfter files (onDrop p files clock acc rej))
  = files ++ appended accepts p files clock delivered.
Proof.
  intros Hen. unfold dropDisabled in Hen.
  unfold classify, appended.
  apply orb_false_iff in Hen as [_ Hroom].
  apply bool_decide_eq_false in Hroom.
  rewrite (bool_decide_true (1 ≤ _)) by lia. rewrite andb_true_l.
  set (passed := filter (λ f, fileOk accepts p f) delivered).
  set (refused := _ <$> filter (λ f, ¬ fileOk accepts p f) delivered).
  case_bool_decide as Hmany.
  - rewrite onDrop_rejections; [done|].
    destruct passed; [simpl in Hmany; lia|].
    intros Heq. by apply app_eq_nil in Heq as [_ ?].
  - destruct refused as [|r refused'] eqn:Href.
    + rewrite onDrop_no_rejections, bool_decide_false by lia. done.
    + rewrite onDrop_rejections by done. done.
Qed.

Lemma drop_appended p files clock batch :
  dropDisabled p files = false →
  drop accepts p files clock batch
  = files ++ appended accepts p files clock (noIgnoredFiles batch).
Proof.
  intros Hen. unfold drop. rewrite Hen. by apply split_appended.
Qed.

Lemma noIgnoredFiles_elem f batch :
  f ∈ noIgnoredFiles batch ↔ f ∈ batch ∧ name f ∉ ignoredNames.
Proof. unfold noIgnoredFiles. rewrite list_elem_of_filter. tauto. Qed.




Lemma whole_batch_appended p files clock batch :
  (∀ f, f ∈ batch → fileOk accepts p f = true) →
  Z.of_nat (length files) + Z.of_nat (length batch) ≤ maxFiles p →
  appended accepts p files clock batch = imap (λ i f, newFile (clock i) f) batch.
Proof.
  intros Hall Hfits. unfold appended.
  rewrite (filter_all (λ f, fileOk accepts p f))
    by (intros f Hf; apply Is_true_true; auto).
  rewrite (filter_none (λ f, ¬ fileOk accepts p f)).
  2:{ intros f Hf Hn. apply Hn, Is_true_true. auto. }
  rewrite bool_decide_false by lia. done.
Qed.


End Drop.


(** With the component's default table the test accepts a file by its type
    or by the end of its name, whatever the case of the letters. *)
Example attrAccepts_default :
  attrAccepts default_accept <$>
    [Samples.plan_pdf; Samples.notes_pdf; Samples.setup_exe;
     mkFile "a.docx" "" 1; mkFile "b.bin" "APPLICATION/PDF" 1;
     mkFile "pdf" "image/png" 1]
  = [true; true; false; true; true; false].
Proof. vm_compute. reflexivity. Qed.

(** A batch with a file of a refused type and one that is too large: the
    two refused files end up with the two messages of the component. *)
Example drop_messages :
  uf_error <$> drop attrAccepts default_props [] Samples.noon
                 [Samples.setup_exe; Samples.big_pdf]
  = [Some "Only PDF or DOCX are supported."; Some "Each file must be ≤ 25 MB."].
Proof. vm_compute. reflexivity. Qed.

(** A dragged [.DS_Store] is left out: the list is handed over as it was. *)
Example drop_ignored_file :
  drop attrAccepts default_props [] Samples.noon [Samples.ds_store] = [].
Proof. vm_compute. reflexivity. Qed.


End DropzoneFacts.

(** * Properties of the report page *)
Module ReportFacts.
Import Report ListFacts.

Lemma badges_from k (l : list Gap) :
  badge <$> imap (λ index gap, mkArea (k + index + 1) gap) l
  = seq (k + 1) (length l).
Proof.
  revert k. induction l as [|g l IH]; intros k; [done|].
  rewrite imap_cons. cbn [fmap list_fmap length seq badge].
  f_equal; [lia|].
  replace (S (k + 1)) with (S k + 1)%nat by lia.
  rewrite <- (IH (S k)). f_equal.
  apply imap_ext. intros i x _. simpl. f_equal. lia.
Qed.

Lemma keyAreas_areas gs :
  area <$> keyAreas gs = take 3 (withRisk high gs ++ withRisk medium gs).
Proof.
  unfold keyAreas. rewrite fmap_app, take_app.
  rewrite (fmap_imap_section _ area) by done.
  f_equal. case_bool_decide as Hfew.
  - by rewrite (fmap_imap_section _ area).
  - replace (3 - length (withRisk high gs))%nat with 0%nat by lia. done.
Qed.

Lemma keyAreas_badges gs :
  badge <$> keyAreas gs = seq 1 (length (keyAreas gs)).
Proof.
  unfold keyAreas. rewrite fmap_app, length_app, seq_app, !length_imap.
  f_equal.
  - apply (badges_from 0).
  - case_bool_decide as Hfew; [|done].
    rewrite badges_from, (take_ge (withRisk high gs)), length_imap by lia.
    f_equal. lia.
Qed.

Lemma keyAreas_lookup gs i g :
  (withRisk high gs ++ withRisk medium gs) !! i = Some g → (i < 3)%nat →
  keyAreas gs !! i = Some (mkArea (i + 1) g).
Proof.
  intros Hg Hi.
  assert (Harea : (area <$> keyAreas gs) !! i = Some g)
    by (by rewrite keyAreas_areas, lookup_take_lt).
  apply list_lookup_fmap_Some in Harea as (k & -> & Hk).
  assert (Hbadge : (badge <$> keyAreas gs) !! i = Some (badge k))
    by (by rewrite list_lookup_fmap, Hk).
  rewrite keyAreas_badges, lookup_seq_lt in Hbadge
    by (by apply lookup_lt_Some in Hk).
  injection Hbadge as Hbadge. rewrite Hk. f_equal.
  destruct k as [n g']. simpl in *. f_equal. lia.
Qed.

(** C10. The "Key Areas Requiring Attention" list shows at most three gaps:
    they are the first three entries of the array's high-risk gaps followed
    by its medium-risk gaps (each group in array order), every one of those
    three at its place with its place counted from 1 as badge; so a
    medium-risk gap is shown only when there are fewer than three
    high-risk gaps, a low-risk gap never, and the badges count 1, 2, ...
    through both groups. *)
Theorem keyAreas_top_three gs :
  let highs := filter (λ g, risk g = high) gs in
  let mediums := filter (λ g, risk g = medium) gs in
  (length (keyAreas gs) ≤ 3)%nat ∧
  area <$> keyAreas gs = take 3 (highs ++ mediums) ∧
  badge <$> keyAreas gs = seq 1 (length (keyAreas gs)) ∧
  (∀ i g, (highs ++ mediums) !! i = Some g → (i < 3)%nat →
     keyAreas gs !! i = Some (mkArea (i + 1) g)) ∧
  (∀ k, k ∈ keyAreas gs → area k ∈ gs ∧ risk (area k) ≠ low) ∧
  (∀ k, k ∈ keyAreas gs → risk (area k) = medium → (length highs < 3)%nat).
Proof.
  intros highs mediums.
  assert (Hin : ∀ k, k ∈ keyAreas gs → area k ∈ take 3 (highs ++ mediums)).
  { intros k Hk.
    change (area k ∈ take 3 (withRisk high gs ++ withRisk medium gs)).
    rewrite <- keyAreas_areas. by apply list_elem_of_fmap_2. }
  split_and!.
  - rewrite <- (length_fmap area), keyAreas_areas, length_take. lia.
  - apply keyAreas_areas.
  - apply keyAreas_badges.
  - apply keyAreas_lookup.
  - intros k Hk. apply Hin, subseteq_take, elem_of_app in Hk.
    destruct Hk as [[Hr ?]%list_elem_of_filter|[Hr ?]%list_elem_of_filter];
      rewrite Hr; done.
  - intros k Hk Hmed. apply Hin in Hk.
    destruct (decide (length highs < 3)%nat) as [|Hmany]; [done|].
    rewrite take_app_le in Hk by lia.
    apply subseteq_take in Hk.
    apply list_elem_of_filter in Hk as [Hr _]. congruence.
Qed.

(** One high-risk gap after two of medium risk: it is shown first. *)
Example keyAreas_high_first :
  (λ k, (badge k, id (area k))) <$>
    keyAreas [mkGap "a" "" "" medium "" ""; mkGap "b" "" "" low "" "";
              mkGap "c" "" "" medium "" ""; mkGap "d" "" "" high "" ""]
  = [(1%nat, "d"); (2%nat, "a"); (3%nat, "c")].
Proof. reflexivity. Qed.

(** The list the page is written with shows gaps 1, 2 and 3. *)
Example keyAreas_mock :
  (λ k, (badge k, id (area k))) <$> keyAreas gaps = [(1%nat, "1"); (2%nat, "2"); (3%nat, "3")].
Proof. reflexivity. Qed.

(** The report the page is written with scores 85 and is flagged. *)
Example manualReview_mock id :
  manualReview (scoreSummary (reportData id) gaps) = true.
Proof. reflexivity. Qed.

(** On the data the page is written with, the banner is shown and the
    score is below 90, with high-risk gaps in the list besides. *)
Example manualReview_mock_criteria id :
  manualReview (scoreSummary (reportData id) gaps) = true ∧
  score (reportData id) < 90 ∧
  ∃ g, g ∈ gaps ∧ risk g = high.
Proof.
  split_and!; [reflexivity|reflexivity|].
  eexists. split; [apply list_elem_of_here|reflexivity].
Qed.

End ReportFacts.

(** * Properties of the chunker *)
Module ChunkerFacts.
Import Chunker.

Section Units.
Context {A : Type}.
Implicit Types (d : Document A) (rest : list A).

Lemma windows_nil d W s ord start : windows d W s ord start [] = [].
Proof. by simp windows. Qed.

Lemma windows_short d W s ord start rest :
  rest ≠ [] → (length rest ≤ W)%nat →
  windows d W s ord start rest = [chunkAt d ord start rest].
Proof.
  intros Hne Hle. destruct rest as [|x r]; [done|].
  simp windows. destruct (decide _); [done|lia].
Qed.

Lemma windows_long d W s ord start rest :
  (W < length rest)%nat →
  windows d W s ord start rest =
    chunkAt d ord start (take W rest) ::
    windows d W s (S ord) (start + S s) (drop (S s) rest).
Proof.
  intros Hlt. destruct rest as [|x r]; [simpl in Hlt; lia|].
  simp windows. destruct (decide _); [lia|done].
Qed.

(** Induction along the windows: a property of [rest] follows from the
    same property of the text one stride further. *)
Lemma windows_ind (W s : nat) (P : list A → Prop) :
  P [] →
  (∀ rest, rest ≠ [] → (length rest ≤ W)%nat → P rest) →
  (∀ rest, (W < length rest)%nat → P (drop (S s) rest) → P rest) →
  ∀ rest, P rest.
Proof.
  intros Hnil Hshort Hlong rest.
  remember (length rest) as n eqn:Hn. revert rest Hn.
  induction n as [n IH] using lt_wf_ind. intros rest ->.
  destruct (decide (rest = [])) as [->|Hne]; [done|].
  destruct (decide (length rest ≤ W)%nat) as [Hle|Hgt]; [by apply Hshort|].
  apply Hlong; [lia|].
  apply (IH (length (drop (S s) rest))); [|done].
  rewrite length_drop. destruct rest; [done|simpl; lia].
Qed.

(** Every later chunk, cut of its first [O] units, continues where the
    window before it ended. *)
Lemma windows_minus_overlap d W s O rest :
  W = (O + S s)%nat →
  ∀ ord start,
  concat ((λ c, drop O (text c)) <$> windows d W s ord start rest) = drop O rest.
Proof.
  intros HW. induction rest as [|rest Hne Hle|rest Hlt IH] using (windows_ind W s);
    intros ord start.
  - by rewrite windows_nil, drop_nil.
  - rewrite windows_short by done. simpl. by rewrite app_nil_r.
  - rewrite windows_long by done.
    cbn [fmap list_fmap concat text chunkAt].
    rewrite IH, drop_drop.
    replace (S s + O)%nat with W by lia.
    apply drop_take_drop. lia.
Qed.

Lemma windows_reassemble d W s O rest :
  W = (O + S s)%nat →
  ∀ ord start, reassemble O (windows d W s ord start rest) = rest.
Proof.
  intros HW ord start.
  destruct (decide (rest = [])) as [->|Hne]; [by rewrite windows_nil|].
  destruct (decide (length rest ≤ W)%nat) as [Hle|Hgt].
  - rewrite windows_short by done. simpl. by rewrite app_nil_r.
  - rewrite windows_long by lia. cbn [reassemble text chunkAt].
    rewrite (windows_minus_overlap d W s O) by done.
    rewrite drop_drop. replace (S s + O)%nat with W by lia.
    apply take_drop.
Qed.

(** Two consecutive windows share [O] units: what the first holds after
    one stride is what the second starts with. *)
Lemma windows_share_overlap d W s O ord start rest :
  W = (O + S s)%nat → (W < length rest)%nat →
  ∃ c1 c2 cs,
    windows d W s ord start rest = c1 :: c2 :: cs ∧
    drop (S s) (text c1) = take O (text c2).
Proof.
  intros HW Hlt. rewrite windows_long by done.
  assert (Hne : drop (S s) rest ≠ []).
  { intros Hnil. apply (f_equal length) in Hnil.
    rewrite length_drop in Hnil. simpl in Hnil. lia. }
  assert (Hshared : drop (S s) (take W rest) = take O (drop (S s) rest)).
  { rewrite take_drop_commute. do 2 f_equal. lia. }
  destruct (decide (length (drop (S s) rest) ≤ W)%nat) as [Hle|Hgt].
  - rewrite (windows_short d W s (S ord)) by done.
    eexists _, _, _. split; [done|]. exact Hshared.
  - rewrite (windows_long d W s (S ord)) by lia.
    eexists _, _, _. split; [done|]. simpl.
    rewrite Hshared, take_take. f_equal. lia.
Qed.

(** Each chunk is the slice of the text between its two offsets. *)
Lemma windows_slices d W s doc rest :
  ∀ ord start c,
  rest = drop start doc →
  c ∈ windows d W s ord start rest →
  charOffsetEnd c = (charOffsetStart c + length (text c))%nat ∧
  text c = take (length (text c)) (drop (charOffsetStart c) doc).
Proof.
  induction rest as [|rest Hne Hle|rest Hlt IH] using (windows_ind W s);
    intros ord start c Hrest Hc.
  - rewrite windows_nil in Hc. by apply elem_of_nil in Hc.
  - rewrite windows_short in Hc by done.
    apply list_elem_of_singleton in Hc as ->. simpl. split; [done|].
    by rewrite <- Hrest, firstn_all.
  - rewrite windows_long in Hc by done.
    apply elem_of_cons in Hc as [->|Hc].
    + simpl. split; [done|].
      by rewrite <- Hrest, length_take_le by lia.
    + apply (IH (S ord) (start + S s)%nat); [|done].
      by rewrite Hrest, drop_drop.
Qed.

(** No unit is left out: every offset of the text lies in some chunk. *)
Lemma windows_cover d W s rest :
  (S s ≤ W)%nat →
  ∀ ord start i, (i < length rest)%nat →
  ∃ c, c ∈ windows d W s ord start rest ∧
       (charOffsetStart c ≤ start + i < charOffsetEnd c)%nat.
Proof.
  intros Hstride.
  induction rest as [|rest Hne Hle|rest Hlt IH] using (windows_ind W s);
    intros ord start i Hi.
  - simpl in Hi. lia.
  - rewrite windows_short by done. eexists. split; [apply list_elem_of_here|].
    simpl. lia.
  - rewrite windows_long by done.
    destruct (decide (i < W)%nat) as [Hfirst|Hlater].
    + eexists. split; [apply list_elem_of_here|].
      simpl. rewrite length_take. lia.
    + destruct (IH (S ord) (start + S s)%nat (i - S s)%nat) as (c & Hc & Hrange).
      { rewrite length_drop. lia. }
      exists c. split; [by apply list_elem_of_further|]. lia.
Qed.

(** C7. For a window [W] and an overlap [O < W] the chunker returns chunks
    whose texts, the first whole and each later one without its leading [O]
    units, concatenate to the document's extracted text; every offset of
    the text lies inside some chunk, and each chunk is the slice of the text
    between its offsets. *)
Theorem chunk_lossless d W O :
  (O < W)%nat →
  ∃ cs,
    chunk W O d = inr cs ∧
    reassemble O cs = extractedText d ∧
    (∀ i, (i < length (extractedText d))%nat →
       ∃ c, c ∈ cs ∧ (charOffsetStart c ≤ i < charOffsetEnd c)%nat) ∧
    (∀ c, c ∈ cs →
       text c = take (charOffsetEnd c - charOffsetStart c)
                  (drop (charOffsetStart c) (extractedText d))).
Proof.
  intros HO. exists (windows d W (W - O - 1) 0 0 (extractedText d)).
  split_and!.
  - unfold chunk. by rewrite decide_True.
  - apply windows_reassemble. lia.
  - intros i Hi.
    apply (windows_cover d W (W - O - 1) (extractedText d) ltac:(lia) 0%nat 0%nat i Hi).
  - intros c Hc.
    destruct (windows_slices d W (W - O - 1) (extractedText d) (extractedText d)
                0%nat 0%nat c eq_refl Hc) as [Hend Htext].
    rewrite Hend. replace (charOffsetStart c + length (text c) - charOffsetStart c)%nat
      with (length (text c)) by lia.
    exact Htext.
Qed.

(** A document shorter than the window is one chunk; an empty one none. *)
Lemma chunk_short d W O :
  (O < W)%nat → extractedText d ≠ [] → (length (extractedText d) ≤ W)%nat →
  chunk W O d = inr [chunkAt d 0 0 (extractedText d)].
Proof.
  intros HO Hne Hle. unfold chunk. rewrite decide_True by done.
  by rewrite windows_short.
Qed.

Lemma chunk_empty d W O :
  (O < W)%nat → extractedText d = [] → chunk W O d = inr [].
Proof.
  intros HO Hnil. unfold chunk. rewrite decide_True by done.
  by rewrite Hnil, windows_nil.
Qed.

End Units.

Lemma chunk_lossless_witness :
  ∃ cs,
    chunk 4 1 Samples.two_pages = inr cs ∧
    reassemble 1 cs = extractedText Samples.two_pages ∧
    (∀ i, (i < length (extractedText Samples.two_pages))%nat →
       ∃ c, c ∈ cs ∧ (charOffsetStart c ≤ i < charOffsetEnd c)%nat) ∧
    (∀ c, c ∈ cs →
       text c = take (charOffsetEnd c - charOffsetStart c)
                  (drop (charOffsetStart c) (extractedText Samples.two_pages))).
Proof. apply (chunk_lossless Samples.two_pages 4 1). lia. Defined.

(** Ten units in windows of four with one unit of overlap. *)
Example chunk_two_pages :
  ∃ cs, chunk 4 1 Samples.two_pages = inr cs ∧
    (λ c, (text c, pageNumber c)) <$> cs
    = [ ([1; 2; 3; 4], 1%nat); ([4; 5; 6; 7], 2%nat); ([7; 8; 9; 10], 2%nat) ].
Proof. eexists. split; reflexivity. Qed.

End ChunkerFacts.

(** * Properties of the scorecard calculator *)
Module ScorecardFacts.
Import Scorecard.

#[local] Open Scope Q_scope.

Lemma value_nonneg f : 0 <= value f.
Proof. unfold value, Qle. simpl. lia. Qed.

Lemma penalty_nonneg p r : (0 ≤ penalty p r)%Z.
Proof. destruct r; simpl; lia. Qed.

Lemma totalPenalty_nonneg p c gaps : (0 ≤ totalPenalty p c gaps)%Z.
Proof.
  induction gaps as [|g gaps IH]; simpl; [done|].
  pose proof (penalty_nonneg p (riskLevel g)). case_decide; lia.
Qed.

Lemma totalPenalty_app p c l1 l2 :
  totalPenalty p c (l1 ++ l2) = (totalPenalty p c l1 + totalPenalty p c l2)%Z.
Proof. induction l1 as [|g l1 IH]; simpl; [done|]. case_decide; lia. Qed.

Lemma decrements_total p c gaps s :
  fold_left (decrement p c) gaps s = (s - totalPenalty p c gaps)%Z.
Proof.
  revert s. induction gaps as [|g gaps IH]; intros s; simpl; [lia|].
  rewrite IH. unfold decrement. case_decide; lia.
Qed.

(** The category score in closed form. *)
Lemma categoryScore_closed p gaps c :
  categoryScore p gaps c = Z.max 0 (100 - totalPenalty p c gaps).
Proof. unfold categoryScore. by rewrite decrements_total. Qed.

Lemma categoryScore_range p gaps c : (0 ≤ categoryScore p gaps c ≤ 100)%Z.
Proof.
  rewrite categoryScore_closed. pose proof (totalPenalty_nonneg p c gaps). lia.
Qed.

(** One more Gap, wherever it is put, lowers no category's score. *)
Lemma categoryScore_add_gap p l1 l2 g c :
  (categoryScore p (l1 ++ g :: l2) c ≤ categoryScore p (l1 ++ l2) c)%Z.
Proof.
  rewrite !categoryScore_closed, !totalPenalty_app. simpl.
  pose proof (penalty_nonneg p (riskLevel g)). case_decide; lia.
Qed.

Lemma weightSum_total w : weightSum w = total ((λ e, value e.2) <$> map_to_list w).
Proof.
  unfold weightSum. rewrite map_fold_foldr.
  induction (map_to_list w) as [|[c f] l IH]; simpl; [done|]. by rewrite IH.
Qed.

Lemma weightedSum_total p gaps w :
  weightedSum p gaps w = total (weighted (categoryScore p gaps) <$> map_to_list w).
Proof.
  unfold weightedSum. rewrite map_fold_foldr.
  induction (map_to_list w) as [|[c f] l IH]; simpl; [done|]. by rewrite IH.
Qed.

Lemma weighted_range sc e :
  (0 ≤ sc e.1 ≤ 100)%Z → 0 <= weighted sc e <= 100 * value e.2.
Proof.
  intros [Hlo Hhi]. unfold weighted.
  pose proof (value_nonneg e.2) as Hv.
  rewrite Zle_Qle in Hlo, Hhi.
  change (inject_Z 0) with 0 in Hlo. change (inject_Z 100) with 100 in Hhi.
  split; nra.
Qed.

Lemma total_weighted_range sc l :
  (∀ c, (0 ≤ sc c ≤ 100)%Z) →
  0 <= total (weighted sc <$> l) <= 100 * total ((λ e, value e.2) <$> l).
Proof.
  intros Hsc. induction l as [|e l IH]; [simpl; lra|].
  rewrite !fmap_cons. cbn [total].
  pose proof (weighted_range sc e (Hsc _)). lra.
Qed.

Lemma total_weighted_mono sc sc' l :
  (∀ c, (sc' c ≤ sc c)%Z) →
  total (weighted sc' <$> l) <= total (weighted sc <$> l).
Proof.
  intros Hsc. induction l as [|e l IH]; [simpl; lra|].
  rewrite !fmap_cons. cbn [total].
  pose proof (value_nonneg e.2) as Hv.
  pose proof (Hsc e.1) as He. rewrite Zle_Qle in He.
  unfold weighted in *. nra.
Qed.

Lemma weightsValid_spec eps w :
  weightsValid eps w = true ↔ 1 - eps <= weightSum w <= 1 + eps.
Proof.
  unfold weightsValid. rewrite Qle_bool_iff, Qabs_Qle_condition.
  split; intros [? ?]; split; lra.
Qed.

Lemma score_valid cfg gaps w :
  weightsValid (epsilon cfg) w = true →
  score cfg gaps w =
    inr {| overallScore := weightedSum (penalties cfg) gaps w;
           perCategoryScore :=
             map_imap (λ c _, Some (categoryScore (penalties cfg) gaps c)) w;
           weights := w |}.
Proof. intros Hv. unfold score. by rewrite Hv. Qed.

Lemma score_invalid cfg gaps w :
  weightsValid (epsilon cfg) w = false → score cfg gaps w = inl ConfigurationError.
Proof. intros Hv. unfold score. by rewrite Hv. Qed.

(** For weights that sum to 1 within epsilon the calculator returns a
    Scorecard in which each weighted category has the score 100 minus the
    penalties of its Gaps, floored at 0, hence between 0 and 100, and the
    overall score is the sum of weight times category score. That sum is
    never negative and at most 100 times the sum of the weights: at most
    100 for weights that sum to no more than 1. What the overall score of
    weights that sum to more than 1 within the tolerance should be is not
    settled by the weighted sum alone. *)
Lemma score_ranges cfg gaps w :
  weightsValid (epsilon cfg) w = true →
  ∃ sc,
    score cfg gaps w = inr sc ∧
    (∀ c, perCategoryScore sc !! c =
            (λ _, Z.max 0 (100 - totalPenalty (penalties cfg) c gaps)) <$> w !! c) ∧
    (∀ c s, perCategoryScore sc !! c = Some s → (0 ≤ s ≤ 100)%Z) ∧
    overallScore sc =
      total (weighted (categoryScore (penalties cfg) gaps) <$> map_to_list w) ∧
    0 <= overallScore sc ∧
    overallScore sc <= 100 * weightSum w ∧
    overallScore sc <= 100 * (1 + epsilon cfg) ∧
    (weightSum w <= 1 → overallScore sc <= 100).
Proof.
  intros Hv. eexists. split; [by apply score_valid|]. simpl.
  assert (Hlookup : ∀ c,
    map_imap (λ c _, Some (categoryScore (penalties cfg) gaps c)) w !! c
    = (λ _, Z.max 0 (100 - totalPenalty (penalties cfg) c gaps)) <$> w !! c).
  { intros c. rewrite map_lookup_imap.
    destruct (w !! c); simpl; [|done]. by rewrite categoryScore_closed. }
  pose proof (total_weighted_range (categoryScore (penalties cfg) gaps)
                (map_to_list w) (categoryScore_range _ _)) as [Hlo Hhi].
  rewrite <- weightSum_total, <- weightedSum_total in Hhi.
  rewrite <- weightedSum_total in Hlo.
  apply weightsValid_spec in Hv as [_ Hsum].
  split_and!.
  - exact Hlookup.
  - intros c s. rewrite Hlookup. destruct (w !! c); simpl; [|done].
    intros [= <-]. pose proof (totalPenalty_nonneg (penalties cfg) c gaps). lia.
  - apply weightedSum_total.
  - exact Hlo.
  - exact Hhi.
  - lra.
  - intros Hone. lra.
Qed.

Example score_ranges_even_weights :
  ∃ sc,
    score default_config [Samples.residency_gap; Samples.policy_gap]
      Samples.even_weights = inr sc ∧
    (∀ c, perCategoryScore sc !! c =
            (λ _, Z.max 0 (100 - totalPenalty (penalties default_config) c
                                   [Samples.residency_gap; Samples.policy_gap]))
              <$> Samples.even_weights !! c) ∧
    (∀ c s, perCategoryScore sc !! c = Some s → (0 ≤ s ≤ 100)%Z) ∧
    overallScore sc =
      total (weighted (categoryScore (penalties default_config)
                         [Samples.residency_gap; Samples.policy_gap])
               <$> map_to_list Samples.even_weights) ∧
    0 <= overallScore sc ∧
    overallScore sc <= 100 * weightSum Samples.even_weights ∧
    overallScore sc <= 100 * (1 + epsilon default_config) ∧
    (weightSum Samples.even_weights <= 1 → overallScore sc <= 100).
Proof.
  apply (score_ranges default_config
           [Samples.residency_gap; Samples.policy_gap] Samples.even_weights).
  vm_compute. reflexivity.
Qed.

(** With the default penalties a high and a low Gap leave their category at
    65, and with even weights the overall score is 82.5. *)
Example score_sample :
  ∃ sc, score default_config [Samples.residency_gap; Samples.policy_gap]
          Samples.even_weights = inr sc ∧
        perCategoryScore sc !! "aml" = Some 65%Z ∧
        perCategoryScore sc !! "governance" = Some 100%Z ∧
        overallScore sc == 165 # 2.
Proof. eexists. split; [reflexivity|]. by vm_compute. Qed.

(** At the margin of the tolerance the plain weighted sum leaves the range:
    two weights of 0.50000025 sum to 1.0000005, inside the tolerance of
    1e-6, and without any Gap the weighted sum is 100.00005. *)
Example weighted_sum_at_the_margin :
  ∃ sc, score default_config [] Samples.heavy_weights = inr sc ∧
        overallScore sc == 10000005 # 100000 ∧
        ¬ (overallScore sc <= 100).
Proof.
  eexists. split; [reflexivity|]. split; [by vm_compute|].
  intros Hle. vm_compute in Hle. by apply Hle.
Qed.

(** C4. Weights that do not sum to 1 within epsilon never yield a
    Scorecard: the calculator fails with ConfigurationError for every Gap
    list, and startup fails with the same error, so no engine runs on other
    weights in their place. *)
Theorem invalid_weights_rejected cfg w :
  ¬ (1 - epsilon cfg <= weightSum w <= 1 + epsilon cfg) →
  (∀ gaps, score cfg gaps w = inl ConfigurationError) ∧
  startup (mkSettings cfg w) = inl ConfigurationError ∧
  (∀ e, startup (mkSettings cfg w) ≠ inr e).
Proof.
  intros Hsum.
  assert (Hv : weightsValid (epsilon cfg) w = false).
  { apply not_true_iff_false. by rewrite weightsValid_spec. }
  assert (Hstart : startup (mkSettings cfg w) = inl ConfigurationError).
  { unfold startup. simpl. by rewrite Hv. }
  split_and!.
  - intros gaps. by apply score_invalid.
  - exact Hstart.
  - intros e. by rewrite Hstart.
Qed.

Lemma invalid_weights_rejected_witness :
  (∀ gaps, score default_config gaps Samples.half_weights = inl ConfigurationError) ∧
  startup (mkSettings default_config Samples.half_weights) = inl ConfigurationError ∧
  (∀ e, startup (mkSettings default_config Samples.half_weights) ≠ inr e).
Proof.
  apply (invalid_weights_rejected default_config Samples.half_weights).
  intros [Hlo _]. vm_compute in Hlo. by apply Hlo.
Defined.

(** A started engine runs on exactly the configured weights. *)
Lemma startup_keeps_weights s e :
  startup s = inr e →
  engineWeights e = configuredWeights s ∧ engineConfig e = configured s.
Proof.
  unfold startup. destruct (weightsValid _ _); [|done]. by intros [= <-].
Qed.

(** C6. Putting one more Gap of high risk anywhere into the Gap list never
    raises the overall score: both calls succeed or both fail alike, and
    when they succeed the new overall score is at most the old one. *)
Theorem high_gap_never_raises_score cfg l1 l2 g w :
  riskLevel g = high →
  match score cfg (l1 ++ l2) w, score cfg (l1 ++ g :: l2) w with
  | inr before, inr after => overallScore after <= overallScore before
  | inl e, inl e' => e = e'
  | _, _ => False
  end.
Proof.
  intros _. destruct (weightsValid (epsilon cfg) w) eqn:Hv.
  - rewrite !score_valid by done. simpl. rewrite !weightedSum_total.
    apply total_weighted_mono. intros c. apply categoryScore_add_gap.
  - by rewrite !score_invalid.
Qed.

Lemma high_gap_never_raises_score_witness :
  match score default_config ([Samples.residency_gap] ++ [Samples.policy_gap])
          Samples.even_weights,
        score default_config
          ([Samples.residency_gap] ++ Samples.officer_gap :: [Samples.policy_gap])
          Samples.even_weights with
  | inr before, inr after => overallScore after <= overallScore before
  | inl e, inl e' => e = e'
  | _, _ => False
  end.
Proof.
  apply (high_gap_never_raises_score default_config [Samples.residency_gap]
           [Samples.policy_gap] Samples.officer_gap Samples.even_weights).
  reflexivity.
Defined.

(** The added high-risk Gap takes the sample from 82.5 to 67.5. *)
Example score_with_officer_gap :
  ∃ sc, score default_config
          [Samples.residency_gap; Samples.officer_gap; Samples.policy_gap]
          Samples.even_weights = inr sc ∧
        overallScore sc == 135 # 2.
Proof. eexists. split; [reflexivity|]. by vm_compute. Qed.

End ScorecardFacts.

(** * Properties of the review gate *)
Module ReviewGateFacts.
Import ReviewGate.













(** The three sample runs: the one with a high-risk Gap and the one with
    an unsure candidate are flagged, the clean one is not; once the first
    is reviewed only the third is still listed, and the first keeps its
    flag with the expert's decision. *)
Example gate_samples :
  state <$> Samples.gate_store !! "run-1" = Some PendingReview ∧
  state <$> Samples.gate_store !! "run-2" = Some AutoResolved ∧
  state <$> Samples.gate_store !! "run-3" = Some PendingReview ∧
  runIds (listPending Samples.reviewed_store) = ["run-3"] ∧
  (Samples.reviewed_store !! "run-1" ≫= flag) =
    Some (mkFlag "run-1" [HighRisk] ManualReview [Affirm]).
Proof. by vm_compute. Qed.

(** A second evaluation of a run the gate knows leaves the store, and
    with it every expert decision, as it is. *)
Lemma evaluated_known cfg store rid e r :
  store !! rid = Some e → evaluated cfg store rid r = store.
Proof. intros H. unfold evaluated. by rewrite H. Qed.

(** A review only adds to the feedback of the flag. *)
Lemma submitReview_appends store rid d store' f :
  submitReview store rid d = Some (store', f) →
  ∃ e f0, store !! rid = Some e ∧ flag e = Some f0 ∧
          expertFeedback f = expertFeedback f0 ++ [d] ∧
          evaluationRunId f = evaluationRunId f0 ∧ reason f = reason f0 ∧
          (state <$> store' !! rid) = Some Reviewed ∧
          (store' !! rid ≫= flag) = Some f.
Proof.
  unfold submitReview. intros H.
  destruct (store !! rid) as [[r st [f0|]]|] eqn:E; try done.
  destruct st; try done; injection H as <- <-;
    eexists _, f0; rewrite lookup_insert_eq; by split_and!.
Qed.

End ReviewGateFacts.

Module FileListFacts.
Import Dropzone ListFacts.

Lemma filter_split_length {A} (P : A → Prop) `{∀ x, Decision (P x)} (l : list A) :
  (length (filter P l) + length (filter (λ x, ¬ P x) l))%nat = length l.
Proof.
  induction l as [|x l IH]; [done|].
  destruct (decide (P x)) as [HP|HP].
  - rewrite (filter_cons_True P) by done.
    rewrite (filter_cons_False (λ x, ¬ P x)) by tauto. simpl. lia.
  - rewrite (filter_cons_False P) by done.
    rewrite (filter_cons_True (λ x, ¬ P x)) by done. simpl. lia.
Qed.

Lemma filter_filter_length {A} (P Q : A → Prop)
    `{∀ x, Decision (P x)} `{∀ x, Decision (Q x)} (l : list A) :
  (length (filter P (filter Q l)) ≤ length (filter P l))%nat.
Proof.
  induction l as [|x l IH]; [done|].
  destruct (decide (Q x)) as [HQ|HQ].
  - rewrite (filter_cons_True Q) by done.
    destruct (decide (P x)).
    + rewrite !(filter_cons_True P) by done. simpl. lia.
    + by rewrite !(filter_cons_False P) by done.
  - rewrite (filter_cons_False Q) by done.
    destruct (decide (P x)).
    + rewrite (filter_cons_True P _ l) by done. simpl. lia.
    + by rewrite (filter_cons_False P _ l) by done.
Qed.

Section Drop.

Variable accepts : list (string * list string) → File → bool.

(** The length of what a drop appends. *)
Lemma appended_length p files clock batch :
  batch ≠ [] →
  (0 < length (appended accepts p files clock batch) ≤ length batch)%nat.
Proof.
  intros Hne. unfold appended.
  pose proof (filter_split_length (λ f, fileOk accepts p f) batch) as Hsplit.
  assert (0 < length batch)%nat by (destruct batch; [done|simpl; lia]).
  case_bool_decide as Hmany.
  - rewrite length_imap, length_app, !length_fmap. lia.
  - destruct (filter (λ f, ¬ fileOk accepts p f) batch) as [|r rs] eqn:Href.
    + simpl. rewrite length_imap. simpl in Hsplit. lia.
    + rewrite fmap_cons. cbv iota. rewrite length_imap. simpl.
      rewrite length_fmap. simpl in Hsplit. lia.
Qed.

Lemma noIgnoredFiles_nil batch :
  noIgnoredFiles batch = [] ↔ ∀ f, f ∈ batch → name f ∈ ignoredNames.
Proof.
  split.
  - intros Hnil f Hf. destruct (decide (name f ∈ ignoredNames)); [done|].
    assert (Hin : f ∈ noIgnoredFiles batch)
      by (by apply DropzoneFacts.noIgnoredFiles_elem).
    rewrite Hnil in Hin. by apply elem_of_nil in Hin.
  - intros Hall. apply filter_none. intros f Hf Hn. by apply Hn, Hall.
Qed.

(** X3. While the dropzone is enabled, no list of files the library splits
    makes [onDrop] return without a call of [onFilesChange]; a drop of a
    batch with at least one file whose name is not ignored always makes the
    list longer, by at most one entry per dropped file; and a drop of files
    with ignored names only hands the list over as it was. *)
Theorem drop_never_silent p files clock batch :
  dropDisabled p files = false →
  (∀ delivered acc rej, classify accepts p files delivered = (acc, rej) →
     onDrop p files clock acc rej ≠ None) ∧
  ((∃ f, f ∈ batch ∧ name f ∉ ignoredNames) →
     (length files < length (drop accepts p files clock batch)
      ≤ length files + length batch)%nat) ∧
  ((∀ f, f ∈ batch → name f ∈ ignoredNames) →
     drop accepts p files clock batch = files).
Proof.
  intros Hen. split_and!.
  - intros delivered acc rej Hsplit. unfold dropDisabled in Hen.
    apply orb_false_iff in Hen as [_ Hroom].
    apply bool_decide_eq_false in Hroom.
    unfold classify in Hsplit.
    rewrite (bool_decide_true (1 ≤ _)), andb_true_l in Hsplit by lia.
    case_bool_decide as Hmany; injection Hsplit as <- <-.
    + rewrite DropzoneFacts.onDrop_rejections; [done|].
      destruct (filter (λ f, fileOk accepts p f) delivered);
        [simpl in Hmany; lia|].
      intros Heq. by apply app_eq_nil in Heq as [_ ?].
    + destruct (_ <$> filter (λ f, ¬ fileOk accepts p f) delivered) eqn:Href.
      * rewrite DropzoneFacts.onDrop_no_rejections, bool_decide_false by lia.
        done.
      * by rewrite DropzoneFacts.onDrop_rejections.
  - intros (f & Hf & Hname).
    rewrite DropzoneFacts.drop_appended, length_app by done.
    assert (Hne : noIgnoredFiles batch ≠ []).
    { intros Hnil. rewrite noIgnoredFiles_nil in Hnil. by apply Hname, Hnil. }
    pose proof (appended_length p files clock _ Hne).
    pose proof (length_filter (λ f, name f ∉ ignoredNames) batch).
    unfold noIgnoredFiles in *. lia.
  - intros Hall. rewrite DropzoneFacts.drop_appended by done.
    apply noIgnoredFiles_nil in Hall. rewrite Hall.
    unfold appended. simpl. rewrite bool_decide_false, app_nil_r; [done|].
    unfold dropDisabled in Hen. apply orb_false_iff in Hen as [_ Hroom].
    apply bool_decide_eq_false in Hroom. lia.
Qed.

(** What a drop appends is never a finished upload. *)
Lemma appended_status p files clock batch e :
  e ∈ appended accepts p files clock batch →
  uf_status e = Some st_pending ∨ uf_status e = Some st_error.
Proof.
  unfold appended. intros He. case_bool_decide.
  - apply elem_of_lookup_imap_1 in He as (i & r & -> & _). by right.
  - destruct (_ <$> filter (λ f, ¬ fileOk accepts p f) batch).
    + apply elem_of_lookup_imap_1 in He as (i & f & -> & _). by left.
    + apply elem_of_lookup_imap_1 in He as (i & r & -> & _). by right.
Qed.

(** A drop keeps the number of accepted entries within [maxFiles]. *)
Lemma drop_accepted_within_limit p files clock batch :
  Z.of_nat (length (acceptedEntries files)) ≤ maxFiles p →
  Z.of_nat (length (acceptedEntries (drop accepts p files clock batch)))
    ≤ maxFiles p.
Proof.
  intros Hinv. destruct (dropDisabled p files) eqn:Hen.
  { unfold drop. by rewrite Hen. }
  rewrite DropzoneFacts.drop_appended by done.
  generalize (noIgnoredFiles batch). clear batch. intros batch.
  unfold acceptedEntries in *. rewrite filter_app, length_app.
  unfold appended. case_bool_decide as Hmany.
  - rewrite (filter_none (λ f, uf_status f ≠ Some st_error) (imap _ _)).
    + simpl. lia.
    + intros e He. apply elem_of_lookup_imap_1 in He as (i & r & -> & _).
      simpl. tauto.
  - destruct (_ <$> filter (λ f, ¬ fileOk accepts p f) batch).
    + pose proof (length_filter (λ f, uf_status f ≠ Some st_error) files).
      pose proof (length_filter (λ f, uf_status f ≠ Some st_error)
        (imap (λ i f, newFile (clock i) f)
           (filter (λ f, fileOk accepts p f) batch))) as Hnew.
      rewrite length_imap in Hnew. lia.
    + rewrite (filter_none (λ f, uf_status f ≠ Some st_error) (imap _ _)).
      * simpl. lia.
      * intros e He. apply elem_of_lookup_imap_1 in He as (i & r & -> & _).
        simpl. tauto.
Qed.

(** X4. Starting from the empty list, whatever files are dropped and
    whatever entries are removed, the list never holds more than [maxFiles]
    entries that are not error entries. *)
Theorem accepted_entries_within_limit p files :
  0 ≤ maxFiles p →
  rtc (step accepts p) [] files →
  Z.of_nat (length (acceptedEntries files)) ≤ maxFiles p.
Proof.
  intros Hmax. revert files.
  apply (rtc_ind_r
           (λ files, Z.of_nat (length (acceptedEntries files)) ≤ maxFiles p) []);
    [done|].
  intros files files' _ Hstep IH.
  destruct Hstep as [files clock batch|files e He].
  - by apply drop_accepted_within_limit.
  - pose proof (filter_filter_length (λ f, uf_status f ≠ Some st_error)
                  (λ f, uf_id f ≠ uf_id e) files).
    unfold acceptedEntries, removeFile in *. lia.
Qed.

Lemma drop_single p files clock f :
  dropDisabled p files = false →
  fileOk accepts p f = true →
  name f ∉ ignoredNames →
  drop accepts p files clock [f] = files ++ [newFile (clock 0%nat) f].
Proof.
  intros Hen Hok Hname.
  rewrite DropzoneFacts.drop_appended by done. f_equal.
  unfold noIgnoredFiles. rewrite filter_cons_True, filter_nil by done.
  rewrite DropzoneFacts.whole_batch_appended; [done| |].
  - intros f' Hf'. by apply list_elem_of_singleton in Hf' as ->.
  - unfold dropDisabled in Hen. apply orb_false_iff in Hen as [_ Hroom].
    apply bool_decide_eq_false in Hroom. simpl. lia.
Qed.


(** X2. Entries made at the same clock reading for files of the same name
    share their id: when all the files the library is handed are accepted,
    removing the entry of one such file removes the entry of the other as
    well. *)
Theorem removeFile_removes_namesakes p files clock batch i j f1 f2 :
  dropDisabled p files = false →
  (∀ f, f ∈ noIgnoredFiles batch → fileOk accepts p f = true) →
  Z.of_nat (length files) + Z.of_nat (length (noIgnoredFiles batch))
    ≤ maxFiles p →
  noIgnoredFiles batch !! i = Some f1 → noIgnoredFiles batch !! j = Some f2 →
  name f1 = name f2 → clock i = clock j →
  newFile (clock j) f2 ∈ drop accepts p files clock batch ∧
  newFile (clock j) f2 ∉
    removeFile (drop accepts p files clock batch) (uf_id (newFile (clock i) f1)).
Proof.
  intros Hen Hall Hfits Hi Hj Hname Hclock. split.
  - rewrite DropzoneFacts.drop_appended, DropzoneFacts.whole_batch_appended
      by done.
    apply elem_of_app. right.
    by apply (elem_of_lookup_imap_2 (λ i f, newFile (clock i) f)).
  - unfold removeFile. rewrite list_elem_of_filter. intros [Hid _].
    apply Hid. simpl. unfold fileId. by rewrite Hname, Hclock.
Qed.

End Drop.

Lemma drop_never_silent_witness :
  (length [newFile 17 Samples.big_pdf]
   < length (drop attrAccepts default_props [newFile 17 Samples.big_pdf]
               Samples.noon [Samples.ds_store; Samples.plan_pdf; Samples.setup_exe])
   ≤ length [newFile 17 Samples.big_pdf]
     + length [Samples.ds_store; Samples.plan_pdf; Samples.setup_exe])%nat.
Proof.
  refine (proj1 (proj2 (drop_never_silent attrAccepts default_props
                          [newFile 17 Samples.big_pdf] Samples.noon
                          [Samples.ds_store; Samples.plan_pdf; Samples.setup_exe]
                          _)) _).
  - vm_compute. reflexivity.
  - exists Samples.plan_pdf. split; [right; left|].
    apply (bool_decide_unpack _). vm_compute. exact I.
Defined.

Lemma accepted_entries_within_limit_witness :
  Z.of_nat (length (acceptedEntries
     (drop attrAccepts default_props [] Samples.noon [Samples.plan_pdf])))
  ≤ maxFiles default_props.
Proof.
  apply (accepted_entries_within_limit attrAccepts default_props).
  - vm_compute. discriminate.
  - apply rtc_once. apply step_drop.
Defined.

(** Error entries are not held back by the limit: with room for ten files,
    eleven files of a refused type leave eleven entries. *)
Example error_entries_exceed_limit :
  length (drop attrAccepts default_props [] Samples.noon
            (replicate 11 Samples.setup_exe)) = 11%nat.
Proof. vm_compute. reflexivity. Qed.


Lemma removeFile_removes_namesakes_witness :
  newFile (Samples.noon 1%nat) Samples.plan_pdf
    ∈ drop attrAccepts default_props [] Samples.noon
        [Samples.plan_pdf; Samples.plan_pdf] ∧
  newFile (Samples.noon 1%nat) Samples.plan_pdf
    ∉ removeFile
        (drop attrAccepts default_props [] Samples.noon
           [Samples.plan_pdf; Samples.plan_pdf])
        (uf_id (newFile (Samples.noon 0%nat) Samples.plan_pdf)).
Proof.
  apply (removeFile_removes_namesakes attrAccepts default_props [] Samples.noon
           [Samples.plan_pdf; Samples.plan_pdf] 0%nat 1%nat
           Samples.plan_pdf Samples.plan_pdf).
  - vm_compute. reflexivity.
  - intros f Hf.
    apply DropzoneFacts.noIgnoredFiles_elem in Hf as [Hf _].
    apply elem_of_cons in Hf as [->|Hf]; [by vm_compute|].
    apply list_elem_of_singleton in Hf as ->. by vm_compute.
  - vm_compute. discriminate.
  - reflexivity.
  - reflexivity.
  - reflexivity.
  - reflexivity.
Defined.

(** X5. A size from 1 KB up to, but not including, 1 MB is shown as a
    number of KB with one decimal that is within 0.05 of the exact value;
    the number shown ranges from 1.0 to 1024.0, and 1024.0 KB is what every
    size from 1048525 bytes on is shown as. *)
Theorem formatFileSize_KB bytes :
  1024 ≤ bytes < 1024 * 1024 →
  ∃ n,
    formatFileSize bytes
      = (pretty (n / 10) +:+ "." +:+ pretty (n mod 10)) +:+ " KB" ∧
    -512 < 1024 * n - 10 * bytes ≤ 512 ∧
    10 ≤ n ≤ 10240 ∧
    (n = 10240 ↔ 1048525 ≤ bytes).
Proof.
  intros Hrange. exists (tenths bytes 1024).
  assert (Hn : 2048 * tenths bytes 1024 ≤ 20 * bytes + 1024
               < 2048 * (tenths bytes 1024 + 1)).
  { unfold tenths. change (2 * 1024) with 2048.
    pose proof (Z.mul_div_le (20 * bytes + 1024) 2048 ltac:(lia)).
    pose proof (Z.mul_succ_div_gt (20 * bytes + 1024) 2048 ltac:(lia)).
    lia. }
  split_and!; try lia.
  unfold formatFileSize, toFixed1.
  rewrite bool_decide_false, bool_decide_true by lia. done.
Qed.

Lemma formatFileSize_KB_witness :
  ∃ n,
    formatFileSize 1048575
      = (pretty (n / 10) +:+ "." +:+ pretty (n mod 10)) +:+ " KB" ∧
    -512 < 1024 * n - 10 * 1048575 ≤ 512 ∧
    10 ≤ n ≤ 10240 ∧
    (n = 10240 ↔ 1048525 ≤ 1048575).
Proof. apply (formatFileSize_KB 1048575). lia. Defined.

(** The three branches on sample sizes. *)
Example formatFileSize_samples :
  formatFileSize <$> [0; 1023; 1024; 1280; 1048575; 1048576; 27262976]
  = ["0 B"; "1023 B"; "1.0 KB"; "1.3 KB"; "1024.0 KB"; "1.0 MB"; "26.0 MB"].
Proof. vm_compute. reflexivity. Qed.

End FileListFacts.

(** * Properties of the upload page *)
Module UploadFacts.
Import Dropzone NewApplication ListFacts.

Lemma patch_id id st pr l : uf_id <$> patch id st pr l = uf_id <$> l.
Proof.
  unfold patch. rewrite <- list_fmap_compose. apply list_fmap_ext.
  intros i f _. simpl. by case_decide.
Qed.

(** A later update of the same id overrides the progress, and the status
    when it sets one. *)
Lemma patch_patch id st1 pr1 st2 pr2 l :
  patch id st2 pr2 (patch id st1 pr1 l)
  = patch id (from_option Some st1 st2) pr2 l.
Proof.
  unfold patch. rewrite <- list_fmap_compose. apply list_fmap_ext.
  intros i f _. simpl.
  destruct (decide (uf_id f = id)) as [Hid|Hid]; simpl.
  - rewrite decide_True by done. simpl. by destruct st2, st1.
  - by rewrite decide_False.
Qed.

(** Updates of different ids do not see each other. *)
Lemma patch_comm id1 st1 pr1 id2 st2 pr2 l :
  id1 ≠ id2 →
  patch id1 st1 pr1 (patch id2 st2 pr2 l) = patch id2 st2 pr2 (patch id1 st1 pr1 l).
Proof.
  intros Hne. unfold patch. rewrite <- !list_fmap_compose.
  apply list_fmap_ext. intros i f _. simpl.
  destruct (decide (uf_id f = id1)) as [H1|H1],
           (decide (uf_id f = id2)) as [H2|H2]; simpl;
    repeat (case_decide; simpl); congruence.
Qed.

Lemma uploadSteps_patch id update :
  update ∈ uploadSteps id → ∃ st pr, update = patch id st pr.
Proof.
  unfold uploadSteps. rewrite elem_of_cons, elem_of_app.
  intros [->|[Hin| ->%list_elem_of_singleton]].
  - by eexists _, _.
  - apply list_elem_of_fmap in Hin as (i & -> & _). by eexists _, _.
  - by eexists _, _.
Qed.

Lemma progress_updates id st pr l values :
  foldl (λ acc update, update acc) (patch id st pr l) (setProgress id <$> values)
  = patch id st (default pr (last values)) l.
Proof.
  revert pr. induction values as [|v values IH]; intros pr; [done|].
  rewrite fmap_cons. cbn [foldl].
  change (setProgress id v (patch id st pr l))
    with (patch id None v (patch id st pr l)).
  rewrite patch_patch. cbn [from_option]. rewrite IH.
  f_equal. rewrite last_cons. by destruct (last values).
Qed.

Lemma uploadFile_collapses id files : uploadFile id files = markSuccess id files.
Proof.
  unfold uploadFile, uploadSteps. cbn [foldl]. rewrite foldl_app.
  unfold markUploading. rewrite progress_updates. cbn [foldl].
  unfold markSuccess. by rewrite patch_patch.
Qed.

(** X6. All updates of one upload together do what the last one does alone:
    the entries with the uploaded file's id end with status success and
    progress 100, every other entry is as before, and no entry is added,
    dropped or moved. *)
Theorem uploadFile_marks_success id files :
  uploadFile id files = markSuccess id files ∧
  uf_file <$> uploadFile id files = uf_file <$> files ∧
  uf_id <$> uploadFile id files = uf_id <$> files ∧
  (∀ i e, uploadFile id files !! i = Some e →
     if decide (uf_id e = id)
     then uf_status e = Some st_success ∧ uf_progress e = Some 100
     else files !! i = Some e).
Proof.
  rewrite uploadFile_collapses. unfold markSuccess. split_and!.
  - done.
  - unfold patch. rewrite <- list_fmap_compose. apply list_fmap_ext.
    intros i f _. simpl. by case_decide.
  - apply patch_id.
  - intros i e. unfold patch. rewrite list_lookup_fmap.
    destruct (files !! i) as [f|]; [|done]. simpl. intros [= <-].
    destruct (decide (uf_id f = id)) as [Hid|Hid]; simpl.
    + by rewrite decide_True.
    + by rewrite decide_False.
Qed.

(** X7. The updates of two uploads with different ids can be applied in
    either order, one by one or upload by upload, with the same result. *)
Theorem uploads_commute id1 id2 files :
  id1 ≠ id2 →
  (∀ u1 u2, u1 ∈ uploadSteps id1 → u2 ∈ uploadSteps id2 →
     ∀ l, u1 (u2 l) = u2 (u1 l)) ∧
  uploadFile id1 (uploadFile id2 files) = uploadFile id2 (uploadFile id1 files).
Proof.
  intros Hne. split.
  - intros u1 u2 (st1 & pr1 & ->)%uploadSteps_patch
                 (st2 & pr2 & ->)%uploadSteps_patch l.
    by apply patch_comm.
  - rewrite !uploadFile_collapses. by apply patch_comm.
Qed.

Lemma uploads_commute_witness :
  (∀ u1 u2, u1 ∈ uploadSteps "a.pdf-1" → u2 ∈ uploadSteps "b.pdf-1" →
     ∀ l, u1 (u2 l) = u2 (u1 l)) ∧
  uploadFile "a.pdf-1" (uploadFile "b.pdf-1" []) =
  uploadFile "b.pdf-1" (uploadFile "a.pdf-1" []).
Proof. apply (uploads_commute "a.pdf-1" "b.pdf-1" []). discriminate. Defined.

(** The progress values of an upload and of an evaluation. *)
Example countUp_values :
  countUp 10 0 = [0; 10; 20; 30; 40; 50; 60; 70; 80; 90; 100] ∧
  length (countUp 5 0) = 21%nat.
Proof. split; reflexivity. Qed.

Lemma canProcess_true files :
  canProcess files = true ↔ ∃ e, e ∈ files ∧ uf_status e = Some st_success.
Proof.
  unfold canProcess. rewrite bool_decide_eq_true. split.
  - intros Hlen.
    destruct (filter (λ f, uf_status f = Some st_success) files) as [|e l] eqn:Hf;
      [simpl in Hlen; lia|].
    assert (He : e ∈ filter (λ f, uf_status f = Some st_success) files)
      by (rewrite Hf; left).
    apply list_elem_of_filter in He as [? ?]. eauto.
  - intros (e & He & Hst).
    assert (Hin : e ∈ filter (λ f, uf_status f = Some st_success) files)
      by (by apply list_elem_of_filter).
    destruct (filter _ files); [by apply elem_of_nil in Hin|simpl; lia].
Qed.

(** X8. A drop never makes the documents processable: whatever is dropped,
    [canProcess] answers after the drop what it answered before. *)
Theorem drop_keeps_canProcess accepts p files clock batch :
  canProcess (drop accepts p files clock batch) = canProcess files.
Proof.
  destruct (dropDisabled p files) eqn:Hen.
  { unfold drop. by rewrite Hen. }
  rewrite DropzoneFacts.drop_appended by done.
  unfold canProcess. rewrite filter_app, length_app.
  rewrite (filter_none _ (appended accepts p files clock (noIgnoredFiles batch))).
  - simpl. by rewrite Nat.add_0_r.
  - intros e He Hst.
    destruct (FileListFacts.appended_status accepts p files clock _ e He);
      congruence.
Qed.

(** X9. Once the upload of an entry of the list has run through, the
    documents can be processed; so a single file that passes validation and
    whose name is not an ignored one, dropped on an enabled dropzone, waits
    as pending and makes the page processable when its upload is done. *)
Theorem upload_enables_processing accepts p files clock f :
  (∀ id e, e ∈ files → uf_id e = id → canProcess (uploadFile id files) = true) ∧
  (dropDisabled p files = false → fileOk accepts p f = true →
   name f ∉ ignoredNames →
   newFile (clock 0%nat) f ∈ pendingFiles (drop accepts p files clock [f]) ∧
   canProcess (uploadFile (fileId f (clock 0%nat))
                 (drop accepts p files clock [f])) = true).
Proof.
  assert (Hgen : ∀ l id e, e ∈ l → uf_id e = id →
            canProcess (uploadFile id l) = true).
  { intros l id e He Hid.
    rewrite uploadFile_collapses.
    apply canProcess_true. unfold markSuccess, patch.
    eexists. split; [by apply list_elem_of_fmap_2|].
    by rewrite decide_True. }
  split; [apply Hgen|].
  intros Hen Hok Hname.
  rewrite FileListFacts.drop_single by done. split.
  - unfold pendingFiles. apply list_elem_of_filter. split; [done|].
    apply elem_of_app. right. left.
  - apply (Hgen _ _ (newFile (clock 0%nat) f)); [|done].
    apply elem_of_app. right. left.
Qed.

(** X10. [handleStartEvaluation] goes on to the report exactly when
    [canProcess] holds, and then always to [/reports/1]; otherwise all it
    does is show the "Files required" toast. *)
Theorem evaluation_starts_iff_canProcess files :
  (Navigate "/reports/1" ∈ handleStartEvaluation files ↔ canProcess files = true) ∧
  (∀ path, Navigate path ∈ handleStartEvaluation files → path = "/reports/1") ∧
  (canProcess files = false →
   handleStartEvaluation files =
     [ Toast "Files required"
         "Please upload at least one file to continue." true ]) ∧
  (canProcess files = true →
   last (handleStartEvaluation files) = Some (Navigate "/reports/1")).
Proof.
  unfold handleStartEvaluation, canProcess.
  destruct (length (filter (λ f, uf_status f = Some st_success) files)) as [|n].
  - rewrite bool_decide_true, bool_decide_false by lia.
    split_and!; try done.
    + split; [|done]. intros Hin.
      apply list_elem_of_singleton in Hin. discriminate.
    + intros path Hin. apply list_elem_of_singleton in Hin. discriminate.
  - rewrite bool_decide_false, bool_decide_true by lia.
    assert (Hnav : ∀ path,
      Navigate path ∈
        [SetIsEvaluating true; SetEvaluationProgress 0] ++
        (SetEvaluationProgress <$> countUp 5 0) ++
        [Toast "Evaluation complete"
           "Your compliance evaluation has been processed successfully." false;
         SetIsEvaluating false; Navigate "/reports/1"]
      ↔ path = "/reports/1").
    { intros path. rewrite !elem_of_app, !elem_of_cons, !elem_of_nil.
      rewrite list_elem_of_fmap. split.
      - intros [[?|[?|[]]]|[(i & ? & _)|[?|[?|[?|[]]]]]]; congruence.
      - intros ->. right. right. right. right. by left. }
    split_and!; try done.
    + split; [done|]. intros _. by apply Hnav.
    + intros path. apply Hnav.
Qed.

Lemma upload_enables_processing_witness :
  newFile (Samples.noon 0%nat) Samples.plan_pdf
    ∈ pendingFiles (drop attrAccepts default_props [] Samples.noon
                      [Samples.plan_pdf]) ∧
  canProcess (uploadFile (fileId Samples.plan_pdf (Samples.noon 0%nat))
                (drop attrAccepts default_props [] Samples.noon
                   [Samples.plan_pdf])) = true.
Proof.
  refine (proj2 (upload_enables_processing attrAccepts default_props []
                   Samples.noon Samples.plan_pdf) _ _ _).
  - vm_compute. reflexivity.
  - vm_compute. reflexivity.
  - apply (bool_decide_unpack _). vm_compute. exact I.
Defined.

End UploadFacts.

(** * More about the report page *)
Module ReportHeadlineFacts.
Import Report ListFacts.

(** X11. The heading and the review banner are chosen by different
    thresholds: a report is called comprehensive and flagged for manual
    review at once exactly when it scores from 80 up to, but not
    including, 90; every report that is not called comprehensive is
    flagged. *)
Theorem headline_and_banner r gs :
  (shownHeadline (scoreSummary r gs) = "Your application is comprehensive" ∧
   manualReview (scoreSummary r gs) = true ↔ 80 ≤ score r < 90) ∧
  (shownHeadline (scoreSummary r gs) ≠ "Your application is comprehensive" →
   manualReview (scoreSummary r gs) = true) ∧
  (shownHeadline (scoreSummary r gs) = "Your application contains major risks"
   ↔ score r < 60).
Proof.
  unfold scoreSummary, headline, manualReviewFlag. simpl.
  repeat case_bool_decide; split_and!; try split;
    try (intros [? ?]); intros; try split; try done; try lia.
Qed.

Lemma NoDup_fmap_eq {A B} (f : A → B) (l : list A) x y :
  NoDup (f <$> l) → x ∈ l → y ∈ l → f x = f y → x = y.
Proof.
  induction l as [|z l IH]; intros Hnd Hx Hy Hf; [by apply elem_of_nil in Hx|].
  rewrite fmap_cons in Hnd. apply NoDup_cons in Hnd as [Hz Hnd].
  apply elem_of_cons in Hx as [->|Hx], Hy as [->|Hy]; [done| | |by apply IH].
  - exfalso. apply Hz. rewrite Hf. by apply list_elem_of_fmap_2.
  - exfalso. apply Hz. rewrite <- Hf. by apply list_elem_of_fmap_2.
Qed.

(** X12. The list shows as many gaps as the array has high-risk and
    medium-risk gaps, up to three; the keys of the list items are the ids of
    the first three of those gaps; and when the gaps of the array have
    different ids, so have the list items (their React keys). *)
Theorem keyAreas_count_and_keys gs :
  length (keyAreas gs)
    = (3 `min` (length (filter (λ g, risk g = high) gs)
                + length (filter (λ g, risk g = medium) gs)))%nat ∧
  (λ k, id (area k)) <$> keyAreas gs
    = id <$> take 3 (filter (λ g, risk g = high) gs
                     ++ filter (λ g, risk g = medium) gs) ∧
  (NoDup (id <$> gs) → NoDup ((λ k, id (area k)) <$> keyAreas gs)).
Proof.
  assert (Hkeys : (λ k, id (area k)) <$> keyAreas gs
            = id <$> take 3 (filter (λ g, risk g = high) gs
                             ++ filter (λ g, risk g = medium) gs)).
  { by rewrite (list_fmap_compose area id), ReportFacts.keyAreas_areas. }
  split_and!.
  - by rewrite <- (length_fmap area), ReportFacts.keyAreas_areas,
      length_take, length_app.
  - exact Hkeys.
  - intros Hnd. rewrite Hkeys.
    assert (Hsub : ∀ (l1 l2 : list Gap),
              l1 `sublist_of` l2 → NoDup (id <$> l2) → NoDup (id <$> l1)).
    { intros l1 l2 Hl Hnd2. apply (sublist_NoDup _ (id <$> l2)); [done|].
      by apply fmap_sublist. }
    apply (Hsub _ (filter (λ g, risk g = high) gs
                   ++ filter (λ g, risk g = medium) gs)); [apply sublist_take|].
    rewrite fmap_app. apply NoDup_app. split_and!.
    + apply (Hsub _ gs); [apply sublist_filter|done].
    + intros x (g1 & -> & Hg1)%list_elem_of_fmap (g2 & Heq & Hg2)%list_elem_of_fmap.
      apply list_elem_of_filter in Hg1 as [Hr1 Hin1], Hg2 as [Hr2 Hin2].
      assert (g1 = g2) by (by apply (NoDup_fmap_eq id gs)).
      congruence.
    + apply (Hsub _ gs); [apply sublist_filter|done].
Qed.

Lemma keyAreas_count_and_keys_witness :
  length (keyAreas gaps) = 3%nat ∧
  (λ k, id (area k)) <$> keyAreas gaps = ["1"; "2"; "3"] ∧
  NoDup ((λ k, id (area k)) <$> keyAreas gaps).
Proof.
  destruct (keyAreas_count_and_keys gaps) as (Hlen & Hkeys & Hnodup).
  split_and!; [exact Hlen|exact Hkeys|]. apply Hnodup.
  apply (bool_decide_unpack _). vm_compute. exact I.
Defined.

End ReportHeadlineFacts.

(** * Properties of the multi-select *)
Module MultiSelectFacts.
Import MultiSelect ListFacts.

(** X13. Toggling a value flips whether it is selected and changes the
    state of no other value; a selection without repetitions stays without
    repetitions. *)
Theorem toggleOption_flips selected v :
  (v ∈ toggleOption selected v ↔ v ∉ selected) ∧
  (∀ x, x ≠ v → (x ∈ toggleOption selected v ↔ x ∈ selected)) ∧
  (NoDup selected → NoDup (toggleOption selected v)).
Proof.
  unfold toggleOption. case_bool_decide as Hin; split_and!.
  - rewrite list_elem_of_filter. tauto.
  - intros x Hx. rewrite list_elem_of_filter. tauto.
  - apply NoDup_filter.
  - rewrite elem_of_app, list_elem_of_singleton. tauto.
  - intros x Hx. rewrite elem_of_app, list_elem_of_singleton. tauto.
  - intros Hnd. apply NoDup_app. split_and!; [done| |apply NoDup_singleton].
    intros x Hx ->%list_elem_of_singleton. done.
Qed.

(** X14. Selecting a value that was not selected and toggling it again
    gives back the selection as it was; toggling a selected value twice
    instead moves it to the end and drops its repetitions. *)
Theorem toggleOption_twice selected v :
  (v ∉ selected → toggleOption (toggleOption selected v) v = selected) ∧
  (v ∈ selected →
   toggleOption (toggleOption selected v) v = removeOption selected v ++ [v]).
Proof.
  split; intros Hin; unfold toggleOption at 2.
  - rewrite bool_decide_false by done. unfold toggleOption.
    rewrite bool_decide_true by (apply elem_of_app; right; left).
    rewrite filter_app, filter_all by (intros x Hx ->; done).
    rewrite filter_cons_False, filter_nil, app_nil_r by tauto. done.
  - rewrite bool_decide_true by done. unfold toggleOption, removeOption.
    rewrite bool_decide_false; [done|].
    rewrite list_elem_of_filter. tauto.
Qed.

Lemma toggleOption_twice_witness :
  toggleOption (toggleOption ["GDPR"; "QFCRA"] "ISO 27001") "ISO 27001"
    = ["GDPR"; "QFCRA"] ∧
  toggleOption (toggleOption ["GDPR"; "QFCRA"] "GDPR") "GDPR"
    = removeOption ["GDPR"; "QFCRA"] "GDPR" ++ ["GDPR"].
Proof.
  split.
  - apply (proj1 (toggleOption_twice ["GDPR"; "QFCRA"] "ISO 27001")).
    rewrite !elem_of_cons, elem_of_nil. intros [?|[?|[]]]; discriminate.
  - apply (proj2 (toggleOption_twice ["GDPR"; "QFCRA"] "GDPR")). left.
Defined.

(** X15. The tags shown are the options whose value is selected, in the
    order of the options; removing a value takes away exactly the tags of
    that value, and a selected value that no option has is shown by no
    tag. *)
Theorem removeOption_hides_tags options selected v :
  selectedOptions options selected `sublist_of` options ∧
  selectedOptions options (removeOption selected v)
    = filter (λ opt, value opt ≠ v) (selectedOptions options selected) ∧
  (v ∉ value <$> options → v ∉ value <$> selectedOptions options selected).
Proof.
  unfold selectedOptions, removeOption. split_and!.
  - apply sublist_filter.
  - rewrite list_filter_filter. apply list_filter_iff.
    intros opt. rewrite list_elem_of_filter. tauto.
  - intros Hno (opt & -> & Hopt)%list_elem_of_fmap.
    apply list_elem_of_filter in Hopt as [_ Hopt].
    apply Hno. by apply list_elem_of_fmap_2.
Qed.

End MultiSelectFacts.

(** * Properties of the stepper *)
Module StepperFacts.
Import Stepper ListFacts.

Lemma stepper_lookup orientation steps currentStep i it :
  stepper orientation steps currentStep !! i = Some it →
  (i < length steps)%nat ∧ it = renderStep orientation steps currentStep i.
Proof.
  unfold stepper. rewrite list_lookup_imap_Some.
  intros (s & Hs & ->). split; [|done]. by apply lookup_lt_Some in Hs.
Qed.

Lemma stepper_seq orientation steps currentStep :
  stepper orientation steps currentStep
  = renderStep orientation steps currentStep <$> seq 0 (length steps).
Proof. unfold stepper. apply imap_seq_0. Qed.

Lemma count_below (c n : nat) :
  length (filter (λ i, i < c)%nat (seq 0 n)) = (c `min` n)%nat.
Proof.
  induction n as [|n IH]; [simpl; lia|].
  rewrite seq_S, filter_app, length_app, IH. simpl.
  destruct (decide (n < c)%nat).
  - rewrite filter_cons_True by done. simpl. lia.
  - rewrite filter_cons_False by done. simpl. lia.
Qed.

(** X16. For a whole-numbered current step every step is exactly one of
    completed, current and upcoming; at most one step is the current one;
    the completed steps are the first ones of the list, as many as
    [currentStep] says (none when it is negative, all when it is beyond
    the list); and a step shows the check mark when it is completed and
    its position, counted from 1, otherwise. *)
Theorem stepper_layout orientation steps currentStep :
  length (stepper orientation steps currentStep) = length steps ∧
  (∀ i it, stepper orientation steps currentStep !! i = Some it →
     (isCompleted it, isCurrent it, isUpcoming it) ∈
       [(true, false, false); (false, true, false); (false, false, true)] ∧
     (isCompleted it = true ↔ Z.of_nat i < currentStep) ∧
     circle it = (if isCompleted it then None else Some (i + 1)%nat) ∧
     ariaCurrent it = isCurrent it) ∧
  (∀ i j it1 it2,
     stepper orientation steps currentStep !! i = Some it1 →
     stepper orientation steps currentStep !! j = Some it2 →
     isCurrent it1 = true → isCurrent it2 = true → i = j) ∧
  length (filter (λ it, isCompleted it = true)
            (stepper orientation steps currentStep))
    = (Z.to_nat currentStep `min` length steps)%nat.
Proof.
  split_and!.
  - unfold stepper. apply length_imap.
  - intros i it (_ & ->)%stepper_lookup. unfold renderStep. simpl.
    split_and!; [|by rewrite bool_decide_eq_true|done|done].
    rewrite !elem_of_cons.
    repeat case_bool_decide; try lia; auto.
  - intros i j it1 it2 (_ & ->)%stepper_lookup (_ & ->)%stepper_lookup.
    unfold renderStep. simpl. rewrite !bool_decide_eq_true. lia.
  - rewrite stepper_seq, <- (count_below (Z.to_nat currentStep) (length steps)).
    generalize (seq 0 (length steps)). intros l.
    induction l as [|i l IH]; [done|].
    rewrite fmap_cons.
    destruct (decide (i < Z.to_nat currentStep)%nat) as [Hlt|Hge].
    + rewrite (filter_cons_True (λ i, i < _)%nat) by done.
      rewrite filter_cons_True; [simpl; by rewrite IH|].
      simpl. apply bool_decide_eq_true. lia.
    + rewrite (filter_cons_False (λ i, i < _)%nat) by done.
      rewrite filter_cons_False; [done|].
      simpl. rewrite bool_decide_eq_true. lia.
Qed.

(** The three steps of a wizard on its second step. *)
Example stepper_second_of_three :
  (λ it, (circle it, ariaCurrent it, connector it)) <$>
    stepper horizontal
      [mkStep "upload" "Upload" None; mkStep "select" "Select" None;
       mkStep "review" "Review" None] 1
  = [(None, false, Some true); (Some 2%nat, true, Some false);
     (Some 3%nat, false, None)].
Proof. reflexivity. Qed.

End StepperFacts.

(** * Properties of the visibility hook *)
Module ObserverFacts.
Import Observer.

Lemma observe_failed batches :
  foldl (λ acc entries, acc ≫= λ st', handleIntersection st' entries)
    None batches = None.
Proof. induction batches as [|b bs IH]; [done|]. simpl. exact IH. Qed.

Lemma observe_cons st entries batches :
  observe st (entries :: batches)
  = handleIntersection st entries ≫= λ st', observe st' batches.
Proof.
  unfold observe. simpl.
  destruct (handleIntersection st entries); simpl; [done|].
  apply observe_failed.
Qed.

(** X17. After any run of callbacks, each with at least one entry,
    [isIntersecting] is what the first entry of the last batch said (or
    still the old value when there was no callback), and [hasIntersected]
    is set exactly when it was set before or the first entry of some batch
    was intersecting. *)
Theorem observe_state st batches :
  Forall (λ entries, entries ≠ []) batches →
  ∃ st',
    observe st batches = Some st' ∧
    isIntersecting st' = default (isIntersecting st) (last (reported <$> batches)) ∧
    hasIntersected st' = hasIntersected st || existsb reported batches.
Proof.
  revert st. induction batches as [|b bs IH]; intros st Hne.
  - exists st. simpl. by rewrite orb_false_r.
  - apply Forall_cons in Hne as [Hb Hbs].
    rewrite observe_cons. destruct b as [|isVisible b]; [done|]. csimpl.
    destruct (IH {| isIntersecting := isVisible;
                    hasIntersected :=
                      if isVisible && negb (hasIntersected st) then true
                      else hasIntersected st |} Hbs)
      as (st' & Hrun & Hlast & Hever).
    exists st'. split_and!; [done| |].
    + rewrite Hlast.
      change (reported <$> (isVisible :: b) :: bs)
        with (reported (isVisible :: b) :: (reported <$> bs)).
      rewrite last_cons. simpl.
      by destruct (last (reported <$> bs)).
    + rewrite Hever. simpl. unfold reported at 2. simpl.
      by destruct isVisible, (hasIntersected st), (existsb reported bs).
Qed.

Lemma observe_state_witness :
  ∃ st',
    observe initial [[false]; [true; false]; [false]] = Some st' ∧
    isIntersecting st'
      = default (isIntersecting initial)
          (last (reported <$> [[false]; [true; false]; [false]])) ∧
    hasIntersected st'
      = hasIntersected initial || existsb reported [[false]; [true; false]; [false]].
Proof.
  apply (observe_state initial [[false]; [true; false]; [false]]).
  repeat constructor; discriminate.
Defined.

(** X18. With [freezeOnceVisible] the animation, once on, stays on through
    every later callback; and in a state reached from one in which
    [isIntersecting] implies [hasIntersected], as in the initial state, the
    frozen answer is on whenever the unfrozen one is. *)
Theorem shouldAnimate_frozen st batches st' :
  observe st batches = Some st' →
  (shouldAnimate true st = true → shouldAnimate true st' = true) ∧
  ((isIntersecting st = true → hasIntersected st = true) →
   shouldAnimate false st' = true → shouldAnimate true st' = true).
Proof.
  revert st. induction batches as [|b bs IH]; intros st Hrun.
  - injection Hrun as <-. unfold shouldAnimate. tauto.
  - rewrite observe_cons in Hrun. destruct b as [|v b]; [done|].
    simpl in Hrun. apply IH in Hrun as [Hkeep Hinv].
    unfold shouldAnimate in *. simpl in *. split.
    + intros Hhas. apply Hkeep. rewrite Hhas. by destruct (v && negb true).
    + intros _. apply Hinv. intros ->. simpl. by destruct (hasIntersected st).
Qed.

Lemma shouldAnimate_frozen_witness :
  observe {| isIntersecting := true; hasIntersected := true |} [[false]; [true]]
    = Some {| isIntersecting := true; hasIntersected := true |} ∧
  shouldAnimate true {| isIntersecting := true; hasIntersected := true |} = true ∧
  shouldAnimate true {| isIntersecting := true; hasIntersected := true |} = true.
Proof.
  destruct (shouldAnimate_frozen
              {| isIntersecting := true; hasIntersected := true |}
              [[false]; [true]]
              {| isIntersecting := true; hasIntersected := true |} eq_refl)
    as [Hkeep Hinv].
  split_and!; [reflexivity|apply Hkeep; reflexivity|].
  apply Hinv; [intros _|]; reflexivity.
Defined.

(** An element that was on screen once and has left again: only the frozen
    hook still animates it. *)
Example left_the_screen :
  ∃ st', observe initial [[true]; [false]] = Some st' ∧
    getAnimationClass true st' "card" "fade-in" = "card fade-in" ∧
    getAnimationClass false st' "card" "fade-in" = "card".
Proof. eexists. split_and!; reflexivity. Qed.

(** A callback with no entry fails. *)
Example empty_callback st : handleIntersection st [] = None.
Proof. reflexivity. Qed.

End ObserverFacts.
